(** * The remux job pipeline of video-processor.js

    A shallow embedding of the [VideoProcessor] class: the discovery query,
    the batch dispatcher, the per-job state machine [processVideo], the
    duration probe, the object-store existence check and the FFmpeg
    invocation.

    External collaborators (the job store, the object store, the file system,
    child processes and the clock) answer through an [env] record holding the
    outcome of every call site; the job store's table is explicit state, and
    every effect the code issues is recorded, in order, as an [event]. *)

From Stdlib Require Import QArith.
Close Scope Q_scope.
From stdpp Require Import base option list sorting gmap strings.
From Stdlib Require Import ZArith Lia.

Local Open Scope string_scope.
Local Open Scope list_scope.
Local Open Scope Z_scope.

(** ** JavaScript values *)

(** A JS number as the code meets it: durations come from a JSON column or
    from [parseFloat], so NaN and the infinities are kept apart from the
    finite values. *)
Inductive jsnum : Type :=
| JNaN
| JInf (negative : bool)
| JFin (q : Q).

(** [!!n] for a number: NaN and zero are falsy. *)
Definition truthy_num (n : jsnum) : bool :=
  match n with
  | JNaN => false
  | JInf _ => true
  | JFin q => negb (Qeq_bool q 0)
  end.

(** [n <= 1]. *)
Definition num_le_1 (n : jsnum) : bool :=
  match n with
  | JNaN => false
  | JInf negative => negative
  | JFin q => Qle_bool q 1
  end.

(** [n || 0]. *)
Definition num_or_0 (n : jsnum) : jsnum :=
  if truthy_num n then n else JFin 0.

(** Values stored in the metadata bag. [JFixed2 a b] stands for the text
    [((a / b) * 100).toFixed(2)], whose digits are floating point and are
    not computed here. *)
Inductive jval : Type :=
| JStr (s : string)
| JInt (z : Z)
| JNum (n : jsnum)
| JFixed2 (a b : Z).

(** [{...base, k1: v1, ..., kn: vn}]: the properties are set left to right
    on a copy of [base]. *)
Definition spread (base : gmap string jval) (props : list (string * jval))
  : gmap string jval :=
  foldl (fun m kv => <[kv.1 := kv.2]> m) base props.

(** [haystack.includes(needle)]. *)
Fixpoint includes (needle haystack : string) : bool :=
  if String.prefix needle haystack then true
  else match haystack with
       | EmptyString => false
       | String _ rest => includes needle rest
       end.

(** [s.substring(0, n)]. *)
Definition substring0 (n : nat) (s : string) : string := String.substring 0 n s.

(** [a || b] on strings: the empty string is falsy. *)
Definition str_or (a b : string) : string :=
  match a with EmptyString => b | _ => a end.

(** ** The job store *)

Inductive remux_state : Type := Pending | Processing | Completed | Skipped | Failed.

#[global] Instance remux_state_eq_dec : EqDecision remux_state.
Proof. solve_decision. Defined.

(** A row of [packing_records], with the columns the processor reads or
    writes. Nullable columns are options. *)
Record packing_record : Type := {
  pr_id : string;
  status : string;
  remux_status : option remux_state;
  remux_attempts : option Z;
  video_url : string;
  video_duration : option Q;
  created_at : Z;
  metadata : option (gmap string jval);
  remuxed_at : option string;
  remuxed_size : option Z
}.

(** The object handed to [.update(...)]: the columns it names. *)
Record patch : Type := {
  set_remux_status : option remux_state;
  set_remux_attempts : option Z;
  set_remuxed_at : option string;
  set_remuxed_size : option Z;
  set_metadata : option (gmap string jval)
}.

Definition apply_patch (p : patch) (r : packing_record) : packing_record :=
  {| pr_id := pr_id r;
     status := status r;
     remux_status := from_option Some (remux_status r) (set_remux_status p);
     remux_attempts := from_option Some (remux_attempts r) (set_remux_attempts p);
     video_url := video_url r;
     video_duration := video_duration r;
     created_at := created_at r;
     metadata := from_option Some (metadata r) (set_metadata p);
     remuxed_at := from_option Some (remuxed_at r) (set_remuxed_at p);
     remuxed_size := from_option Some (remuxed_size r) (set_remuxed_size p) |}.

(** [.update(p).eq('id', id)] on the table. *)
Definition update_rows (id : string) (p : patch) (tbl : list packing_record)
  : list packing_record :=
  (fun r => if String.eqb (pr_id r) id then apply_patch p r else r) <$> tbl.

(** *** The query builder

    The discovery chain [.eq .eq .lt .gt .order .limit] is interpreted over
    the table with SQL's treatment of NULL: a comparison with NULL is not
    true, so the row is filtered out. *)
Inductive column : Type :=
| col_status | col_remux_status | col_remux_attempts | col_video_duration.

Inductive sqlval : Type :=
| VNull
| VText (s : string)
| VNumber (q : Q).

Definition remux_state_text (s : remux_state) : string :=
  match s with
  | Pending => "pending"
  | Processing => "processing"
  | Completed => "completed"
  | Skipped => "skipped"
  | Failed => "failed"
  end.

Definition column_value (c : column) (r : packing_record) : sqlval :=
  match c with
  | col_status => VText (status r)
  | col_remux_status => from_option (fun s => VText (remux_state_text s)) VNull (remux_status r)
  | col_remux_attempts => from_option (fun z => VNumber (inject_Z z)) VNull (remux_attempts r)
  | col_video_duration => from_option VNumber VNull (video_duration r)
  end.

Inductive filter_op : Type :=
| f_eq (c : column) (v : sqlval)
| f_lt (c : column) (v : sqlval)
| f_gt (c : column) (v : sqlval).

Definition sql_eq (a b : sqlval) : bool :=
  match a, b with
  | VText s, VText t => String.eqb s t
  | VNumber p, VNumber q => Qeq_bool p q
  | _, _ => false
  end.

Definition sql_lt (a b : sqlval) : bool :=
  match a, b with
  | VNumber p, VNumber q => negb (Qle_bool q p)
  | _, _ => false
  end.

Definition filter_holds (f : filter_op) (r : packing_record) : bool :=
  match f with
  | f_eq c v => sql_eq (column_value c r) v
  | f_lt c v => sql_lt (column_value c r) v
  | f_gt c v => sql_lt v (column_value c r)
  end.

(** [.order('created_at', { ascending: true })]: rows with equal keys keep
    the table's order. *)
Fixpoint insert_by_created (r : packing_record) (l : list packing_record)
  : list packing_record :=
  match l with
  | [] => [r]
  | x :: l' => if Z.ltb (created_at r) (created_at x) then r :: x :: l'
               else x :: insert_by_created r l'
  end.

Definition order_by_created (l : list packing_record) : list packing_record :=
  foldr insert_by_created [] l.

Record select_query : Type := {
  q_filters : list filter_op;
  q_limit : nat
}.

Definition run_select (q : select_query) (tbl : list packing_record)
  : list packing_record :=
  take (q_limit q)
    (order_by_created
       (List.filter (fun r => forallb (fun f => filter_holds f r) (q_filters q)) tbl)).

(** The query of [processVideos]. *)
Definition discovery_query : select_query :=
  {| q_filters :=
       [ f_eq col_status (VText "completed");
         f_eq col_remux_status (VText "pending");
         f_lt col_remux_attempts (VNumber 3);
         f_gt col_video_duration (VNumber 1) ];
     q_limit := 5 |}.

(** ** Effects *)

(** How an awaited call completes: with a value, or by throwing an [Error]
    whose [message] is kept. *)
Inductive completion (A : Type) : Type :=
| Normal (a : A)
| Thrown (message : string).
Arguments Normal {A} a.
Arguments Thrown {A} message.

(** Every effect the processor issues. [console.log] lines are left out;
    [console.error] and [console.warn] are kept. [EvLaunch] marks the call
    that creates a job's promise and [EvSettled] the moment it settles. *)
Inductive event : Type :=
| EvSelect
| EvUpdate (id : string) (p : patch) (applied : bool)
| EvHead (key : string)
| EvGet (key path : string)
| EvSignedUrl (key : string)
| EvWget (path : string)
| EvCurl (path : string)
| EvStat (path : string)
| EvProbe (path : string)
| EvFFmpeg (input output : string)
| EvReadFile (path : string)
| EvPut (path key : string)
| EvUnlink (path : string)
| EvConsoleError (text : string)
| EvConsoleWarn (text : string)
| EvLaunch (id : string)
| EvSettled (id : string) (fulfilled : bool).

(** [this.stats], without [startTime]. *)
Record stats_t : Type := {
  processed : Z;
  failed : Z;
  skipped : Z;
  totalSaved : Z
}.

Record world : Type := {
  db : list packing_record;
  stats : stats_t
}.

Record result (A : Type) : Type := {
  outcome : completion A;
  after : world;
  events : list event
}.
Arguments outcome {A} _.
Arguments after {A} _.
Arguments events {A} _.

Definition M (A : Type) : Type := world -> result A.

Definition ret {A} (a : A) : M A :=
  fun w => {| outcome := Normal a; after := w; events := [] |}.

Definition bind {A B} (m : M A) (k : A -> M B) : M B :=
  fun w =>
    match m w with
    | {| outcome := Normal a; after := w1; events := evs1 |} =>
        match k a w1 with
        | {| outcome := c; after := w2; events := evs2 |} =>
            {| outcome := c; after := w2; events := evs1 ++ evs2 |}
        end
    | {| outcome := Thrown msg; after := w1; events := evs1 |} =>
        {| outcome := Thrown msg; after := w1; events := evs1 |}
    end.

#[global] Instance M_ret : MRet M := @ret.
#[global] Instance M_bind : MBind M := fun A B k m => bind m k.

(** [try { m } catch (error) { handler error.message }]. *)
Definition try_catch {A} (m : M A) (handler : string -> M A) : M A :=
  fun w =>
    match m w with
    | {| outcome := Normal a; after := w1; events := evs1 |} =>
        {| outcome := Normal a; after := w1; events := evs1 |}
    | {| outcome := Thrown msg; after := w1; events := evs1 |} =>
        match handler msg w1 with
        | {| outcome := c; after := w2; events := evs2 |} =>
            {| outcome := c; after := w2; events := evs1 ++ evs2 |}
        end
    end.

(** [try { m } finally { fin }]: [fin] runs on every exit of [m]; when it
    throws, its error replaces the completion of [m]. *)
Definition try_finally {A} (m : M A) (fin : M unit) : M A :=
  fun w =>
    match m w with
    | {| outcome := c; after := w1; events := evs1 |} =>
        match fin w1 with
        | {| outcome := Normal _; after := w2; events := evs2 |} =>
            {| outcome := c; after := w2; events := evs1 ++ evs2 |}
        | {| outcome := Thrown msg; after := w2; events := evs2 |} =>
            {| outcome := Thrown msg; after := w2; events := evs1 ++ evs2 |}
        end
    end.

Definition emit (ev : event) : M unit :=
  fun w => {| outcome := Normal tt; after := w; events := [ev] |}.

(** An awaited external call: the call is recorded and completes the way the
    environment says. *)
Definition await {A} (ev : event) (c : completion A) : M A :=
  fun w => {| outcome := c; after := w; events := [ev] |}.

Definition modify_stats (f : stats_t -> stats_t) : M unit :=
  fun w => {| outcome := Normal tt;
              after := {| db := db w; stats := f (stats w) |};
              events := [] |}.

(** What the job store does with an update: it applies it; or it answers
    with an [error] object, which the code never inspects; or the awaited
    call itself throws. *)
Inductive write_outcome : Type :=
| WApplied
| WError (message : string)
| WThrow (message : string).

(** [await this.supabase.from('packing_records').update(p).eq('id', id)]. *)
Definition db_update (o : write_outcome) (id : string) (p : patch) : M unit :=
  fun w =>
    match o with
    | WApplied =>
        {| outcome := Normal tt;
           after := {| db := update_rows id p (db w); stats := stats w |};
           events := [EvUpdate id p true] |}
    | WError _ =>
        {| outcome := Normal tt; after := w; events := [EvUpdate id p false] |}
    | WThrow msg =>
        {| outcome := Thrown msg; after := w; events := [EvUpdate id p false] |}
    end.

(** The answer to a HEAD request; [ContentLength] may be undefined. *)
Inductive head_outcome : Type :=
| HeadOk (ContentLength : option Z)
| HeadThrow (message : string).

(** [error.code] of a failed [exec]: the exit status, [null] after a signal,
    or a string such as ['ENOENT']. *)
Inductive exec_code : Type :=
| CodeNumber (z : Z)
| CodeNull
| CodeText (s : string).

Record exec_error : Type := {
  code : exec_code;
  message : string
}.

(** The arguments [exec] passes to its callback. *)
Record exec_result : Type := {
  error : option exec_error;
  stdout : string;
  stderr : string
}.

(** The environment of one [processVideo] call: the clock readings and the
    outcome of every external call site. *)
Record env : Type := {
  tempDir : string;
  at_skipped : string;
  at_claimed : string;
  at_remuxed : string;
  at_failed : string;
  elapsed_ms : Z;
  db_skip_known : write_outcome;
  db_claim : write_outcome;
  head : head_outcome;
  dl_stream : completion unit;
  dl_signed_url : completion unit;
  dl_wget : completion unit;
  dl_curl : completion unit;
  stat_input : completion Z;
  ffprobe : completion jsnum;
  db_skip_probed : write_outcome;
  ffmpeg : exec_result;
  stat_output : completion Z;
  read_output : completion unit;
  put_object : completion unit;
  db_completed : write_outcome;
  db_failed_missing : write_outcome;
  db_failed_caught : write_outcome
}.

(** ** The processor *)

Definition path_join (dir name : string) : string := dir +:+ "/" +:+ name.

(** [cleanup(...files)]: every [unlink] error is swallowed. *)
Definition cleanup (files : list string) : M unit :=
  foldr (fun file rest => emit (EvUnlink file);; rest) (ret tt) files.

Definition failed_patch (now : string) (existingMetadata : gmap string jval)
    (reason : string) : patch :=
  {| set_remux_status := Some Failed;
     set_remux_attempts := Some 3;
     set_remuxed_at := None;
     set_remuxed_size := None;
     set_metadata :=
       Some (spread existingMetadata
               [("remux_error", JStr reason); ("failed_at", JStr now)]) |}.

(** [markAsFailed(videoId, existingMetadata, reason)]. *)
Definition markAsFailed (o : write_outcome) (now : string) (videoId : string)
    (existingMetadata : gmap string jval) (reason : string) : M unit :=
  db_update o videoId (failed_patch now existingMetadata reason).

(** [response.ContentLength > 0], where [undefined > 0] is false. *)
Definition content_length_positive (ContentLength : option Z) : bool :=
  match ContentLength with
  | Some n => 0 <? n
  | None => false
  end.

(** [checkR2File(key)]. *)
Definition checkR2File (e : env) (key : string) : M bool :=
  try_catch
    (response ← await (EvHead key)
                   (match head e with
                    | HeadOk len => Normal len
                    | HeadThrow msg => Thrown msg
                    end);
     ret (content_length_positive response))
    (fun _ => ret false).

(** [downloadFromR2(key, outputPath)]: the stream first, then a signed URL
    fetched with wget, then with curl. *)
Definition downloadFromR2 (e : env) (key outputPath : string) : M unit :=
  try_catch
    (await (EvGet key outputPath) (dl_stream e))
    (fun _ =>
       await (EvSignedUrl key) (dl_signed_url e);;
       try_catch
         (await (EvWget outputPath) (dl_wget e))
         (fun _ => await (EvCurl outputPath) (dl_curl e))).

(** [uploadToR2(filePath, key)]. *)
Definition uploadToR2 (e : env) (filePath key : string) : M unit :=
  await (EvReadFile filePath) (read_output e);;
  await (EvPut filePath key) (put_object e).

(** [getVideoDuration(filePath)]. [ffprobe e] is the outcome of the ffprobe
    command, a successful run being seen through
    [parseFloat(stdout.trim())]. *)
Definition getVideoDuration (e : env) (filePath : string) : M jsnum :=
  try_catch
    (parsed ← await (EvProbe filePath) (ffprobe e);
     ret (num_or_0 parsed))
    (fun msg =>
       emit (EvConsoleWarn ("Could not detect duration: " +:+ msg));;
       ret (JFin 0)).

(** [error.code !== 0]. *)
Definition code_not_zero (c : exec_code) : bool :=
  match c with
  | CodeNumber z => negb (z =? 0)
  | _ => true
  end.

(** The callback [executeFFmpeg] hands to [exec]: how the promise settles. *)
Definition ffmpeg_callback (r : exec_result) : completion unit :=
  match error r with
  | Some err =>
      if code_not_zero (code err) && negb (includes "muxing overhead" (stdout r))
      then
        let errorMessage := str_or (stderr r) (str_or (stdout r) (message err)) in
        Thrown ("FFmpeg failed: " +:+ substring0 500 errorMessage)
      else Normal tt
  | None => Normal tt
  end.

(** [executeFFmpeg(input, output)]. *)
Definition executeFFmpeg (e : env) (input output : string) : M unit :=
  await (EvFFmpeg input output) (ffmpeg_callback (ffmpeg e)).

(** [video.metadata || {}]. *)
Definition metadata_or_empty (video : packing_record) : gmap string jval :=
  default ∅ (metadata video).

(** [(video.remux_attempts || 0) + 1]. *)
Definition attempt_number (video : packing_record) : Z :=
  default 0 (remux_attempts video) + 1.

(** [video.video_duration && video.video_duration <= 1]. *)
Definition known_too_short (video : packing_record) : bool :=
  match video_duration video with
  | Some d => truthy_num (JFin d) && num_le_1 (JFin d)
  | None => false
  end.

(** The recorded duration when it is truthy; [None] when [!actualDuration]
    holds, that is for null and for 0. *)
Definition recorded_duration (video : packing_record) : option jsnum :=
  match video_duration video with
  | Some d => if truthy_num (JFin d) then Some (JFin d) else None
  | None => None
  end.

Definition skip_known_patch (e : env) (video : packing_record) : patch :=
  {| set_remux_status := Some Skipped;
     set_remux_attempts := None;
     set_remuxed_at := None;
     set_remuxed_size := None;
     set_metadata :=
       Some (spread (metadata_or_empty video)
               [("skip_reason", JStr "duration_too_short");
                ("skipped_at", JStr (at_skipped e))]) |}.

Definition claim_patch (e : env) (video : packing_record) : patch :=
  {| set_remux_status := Some Processing;
     set_remux_attempts := Some (attempt_number video);
     set_remuxed_at := None;
     set_remuxed_size := None;
     set_metadata :=
       Some (spread (metadata_or_empty video)
               [("last_remux_attempt", JStr (at_claimed e))]) |}.

Definition skip_probed_patch (e : env) (video : packing_record)
    (actualDuration : jsnum) : patch :=
  {| set_remux_status := Some Skipped;
     set_remux_attempts := None;
     set_remuxed_at := None;
     set_remuxed_size := None;
     set_metadata :=
       Some (spread (metadata_or_empty video)
               [("skip_reason", JStr "duration_too_short");
                ("detected_duration", JNum actualDuration);
                ("skipped_at", JStr (at_skipped e))]) |}.

Definition completed_patch (e : env) (video : packing_record)
    (inputSize outputSize : Z) (actualDuration : jsnum) : patch :=
  let savedBytes := inputSize - outputSize in
  {| set_remux_status := Some Completed;
     set_remux_attempts := None;
     set_remuxed_at := Some (at_remuxed e);
     set_remuxed_size := Some outputSize;
     set_metadata :=
       Some (spread (metadata_or_empty video)
               [("remux_processing_time_ms", JInt (elapsed_ms e));
                ("original_size", JInt inputSize);
                ("size_saved", JInt savedBytes);
                ("compression_ratio", JFixed2 savedBytes inputSize);
                ("detected_duration", JNum actualDuration)]) |}.

Definition tempInput (e : env) (video : packing_record) : string :=
  path_join (tempDir e) ("input_" +:+ pr_id video +:+ ".webm").

Definition tempOutput (e : env) (video : packing_record) : string :=
  path_join (tempDir e) ("output_" +:+ pr_id video +:+ ".webm").

(** From the remux to the end of the [try] block of [processVideo]. *)
Definition remux_and_store (e : env) (video : packing_record)
    (inputSize : Z) (actualDuration : jsnum) : M unit :=
  executeFFmpeg e (tempInput e video) (tempOutput e video);;
  outputSize ← await (EvStat (tempOutput e video)) (stat_output e);
  let savedBytes := inputSize - outputSize in
  uploadToR2 e (tempOutput e video) (video_url video);;
  db_update (db_completed e) (pr_id video)
    (completed_patch e video inputSize outputSize actualDuration);;
  modify_stats (fun s =>
    {| processed := processed s + 1;
       failed := failed s;
       skipped := skipped s;
       totalSaved := totalSaved s + savedBytes |}).

(** The [try] block of [processVideo]. *)
Definition attempt (e : env) (video : packing_record) : M unit :=
  exists_ ← checkR2File e (video_url video);
  if negb exists_ then
    if 3 <=? attempt_number video then
      markAsFailed (db_failed_missing e) (at_failed e) (pr_id video)
        (metadata_or_empty video) "File not found after 3 attempts"
    else ret tt
  else
    downloadFromR2 e (video_url video) (tempInput e video);;
    inputSize ← await (EvStat (tempInput e video)) (stat_input e);
    match recorded_duration video with
    | Some actualDuration => remux_and_store e video inputSize actualDuration
    | None =>
        actualDuration ← getVideoDuration e (tempInput e video);
        if num_le_1 actualDuration then
          modify_stats (fun s =>
            {| processed := processed s;
               failed := failed s;
               skipped := skipped s + 1;
               totalSaved := totalSaved s |});;
          db_update (db_skip_probed e) (pr_id video)
            (skip_probed_patch e video actualDuration);;
          cleanup [tempInput e video; tempOutput e video]
        else remux_and_store e video inputSize actualDuration
    end.

(** The [catch] block of [processVideo]. *)
Definition on_error (e : env) (video : packing_record) (msg : string) : M unit :=
  emit (EvConsoleError ("Failed: " +:+ msg));;
  modify_stats (fun s =>
    {| processed := processed s;
       failed := failed s + 1;
       skipped := skipped s;
       totalSaved := totalSaved s |});;
  if 3 <=? attempt_number video then
    markAsFailed (db_failed_caught e) (at_failed e) (pr_id video)
      (metadata_or_empty video) msg
  else ret tt.

(** [processVideo(video)]. *)
Definition processVideo (e : env) (video : packing_record) : M unit :=
  if known_too_short video then
    modify_stats (fun s =>
      {| processed := processed s;
         failed := failed s;
         skipped := skipped s + 1;
         totalSaved := totalSaved s |});;
    db_update (db_skip_known e) (pr_id video) (skip_known_patch e video)
  else
    db_update (db_claim e) (pr_id video) (claim_patch e video);;
    try_finally
      (try_catch (attempt e video) (on_error e video))
      (cleanup [tempInput e video; tempOutput e video]).

(** ** The batch dispatcher and the cycle *)

(** [videos.slice(a, b)] for [a <= b]. *)
Definition slice {A} (a b : nat) (l : list A) : list A := take (b - a) (drop a l).

Definition is_normal {A} (c : completion A) : bool :=
  match c with Normal _ => true | Thrown _ => false end.

(** One promise of the group running to its settlement: a rejection becomes
    a settled result and goes no further. *)
Definition settle (job : packing_record -> M unit) (video : packing_record)
  : M (completion unit) :=
  fun w =>
    match job video w with
    | {| outcome := c; after := w1; events := evs |} =>
        {| outcome := Normal c;
           after := w1;
           events := evs ++ [EvSettled (pr_id video) (is_normal c)] |}
    end.

(** The tasks of [batch], listed in the order in which they settle, each
    running to its settlement. *)
Fixpoint settle_all (job : packing_record -> M unit) (batch : list packing_record)
  : M (list (completion unit)) :=
  match batch with
  | [] => ret []
  | video :: rest =>
      c ← settle job video;
      cs ← settle_all job rest;
      ret (c :: cs)
  end.

(** The order in which the promises of a group settle is the runtime's, not
    the list's: it follows the time each task takes. [finish] gives that
    time; the tasks settle by increasing time, and in list order where the
    times are equal. *)
Fixpoint insert_by_finish (finish : packing_record -> nat) (video : packing_record)
    (l : list packing_record) : list packing_record :=
  match l with
  | [] => [video]
  | x :: l' =>
      if (finish video <=? finish x)%nat then video :: l
      else x :: insert_by_finish finish video l'
  end.

Definition settlement_order (finish : packing_record -> nat)
    (batch : list packing_record) : list packing_record :=
  foldr (insert_by_finish finish) [] batch.

(** [await Promise.allSettled(batch.map(video => this.processVideo(video)))]:
    [map] creates every promise of the group, in list order, then all of
    them are awaited; the array of outcomes is dropped by the caller. The
    tasks of a group touch the table only through their own [id] and the
    statistics only by increments; the effects of a task are recorded as one
    block, and the blocks in the order in which the tasks settle. *)
Definition allSettled (finish : packing_record -> nat)
    (job : packing_record -> M unit) (batch : list packing_record) : M unit :=
  foldr (fun video rest => emit (EvLaunch (pr_id video));; rest) (ret tt) batch;;
  settle_all job (settlement_order finish batch);;
  ret tt.

Definition batchSize : nat := 3.

(** [for (let i = 0; i < videos.length; i += batchSize) { ... }], from a
    given [i]; [fuel] bounds the number of iterations. *)
Fixpoint dispatch_from (fuel : nat) (finish : packing_record -> nat)
    (job : packing_record -> M unit) (videos : list packing_record) (i : nat)
  : M unit :=
  match fuel with
  | O => ret tt
  | S fuel' =>
      if (i <? length videos)%nat then
        let batch := slice i (i + batchSize) videos in
        allSettled finish job batch;;
        dispatch_from fuel' finish job videos (i + batchSize)
      else ret tt
  end.

(** The loop of [processVideos]; [i] grows by [batchSize] each round, so
    [length videos] rounds are enough. *)
Definition dispatch (finish : packing_record -> nat) (job : packing_record -> M unit)
    (videos : list packing_record) : M unit :=
  dispatch_from (length videos) finish job videos 0.

(** How the job store answers the discovery query. *)
Inductive select_outcome : Type :=
| SelectRows
| SelectNoData
| SelectError (message : string)
| SelectThrow (message : string).

(** The [{ data, error }] object of a query. *)
Record select_response : Type := {
  data : option (list packing_record);
  select_error : option string
}.

Definition select_rows (o : select_outcome) (q : select_query) : M select_response :=
  fun w =>
    {| outcome :=
         match o with
         | SelectRows =>
             Normal {| data := Some (run_select q (db w)); select_error := None |}
         | SelectNoData => Normal {| data := None; select_error := None |}
         | SelectError msg => Normal {| data := None; select_error := Some msg |}
         | SelectThrow msg => Thrown msg
         end;
       after := w;
       events := [EvSelect] |}.

(** The environment of one cycle: the answer of the query, the answers each
    task gets, and the time each task takes. *)
Record cycle_env : Type := {
  select_answer : select_outcome;
  job_env : packing_record -> env;
  finish_time : packing_record -> nat
}.

(** [processVideos()]. *)
Definition processVideos (ce : cycle_env) : M unit :=
  try_catch
    (response ← select_rows (select_answer ce) discovery_query;
     match select_error response with
     | Some msg => emit (EvConsoleError ("Database query error: " +:+ msg))
     | None =>
         match data response with
         | None => ret tt
         | Some [] => ret tt
         | Some videos =>
             dispatch (finish_time ce)
               (fun video => processVideo (job_env ce video) video) videos
         end
     end)
    (fun msg => emit (EvConsoleError ("Process error: " +:+ msg))).

(** The cycles of [start()]: one at once, then one at each firing of the
    schedule, here each over before the next begins. A cycle swallows its
    errors, so nothing of it reaches the scheduler. *)
Fixpoint cycles (ces : list cycle_env) : M unit :=
  match ces with
  | [] => ret tt
  | ce :: rest => processVideos ce;; cycles rest
  end.

(** * Vocabulary of the properties *)

(** ** Outcome of the remux *)

(** The run is a real failure: [exec] reports an error whose code is not 0
    (a non-zero exit status, or no exit status at all), and the success
    marker does not occur in the standard output. *)
Definition real_failure (r : exec_result) : Prop :=
  exists err, error r = Some err /\ code err <> CodeNumber 0 /\
    ~ exists before rest, stdout r = before +:+ "muxing overhead" +:+ rest.

(** [stderr || stdout || error.message]; the empty text when [exec] reported
    no error. *)
Definition diagnostic (r : exec_result) : string :=
  str_or (stderr r) (str_or (stdout r) (from_option message "" (error r))).

(** ** Runs and their events *)

(** The table after a sequence of events: the applied updates, in order. *)
Fixpoint replay (evs : list event) (tbl : list packing_record) : list packing_record :=
  match evs with
  | [] => tbl
  | EvUpdate id p true :: evs' => replay evs' (update_rows id p tbl)
  | _ :: evs' => replay evs' tbl
  end.

(** [R] holds of every applied update, stated on the table as it stands just
    before that update. *)
Fixpoint each_write (R : list packing_record -> string -> patch -> Prop)
    (tbl : list packing_record) (evs : list event) : Prop :=
  match evs with
  | [] => True
  | EvUpdate id p true :: evs' =>
      R tbl id p /\ each_write R (update_rows id p tbl) evs'
  | _ :: evs' => each_write R tbl evs'
  end.

(** Every event of every run of [m] satisfies [P]. *)
Definition emits {A} (P : event -> Prop) (m : M A) : Prop :=
  forall w, Forall P (events (m w)).

(** The table after a run is the table before it with the run's applied
    updates replayed. *)
Definition logged {A} (m : M A) : Prop :=
  forall w, db (after (m w)) = replay (events (m w)) (db w).

(** [row.metadata[k]], undefined when the bag is null. *)
Definition meta_lookup (row : packing_record) (k : string) : option jval :=
  metadata row ≫= fun m => m !! k.

Definition is_probe (ev : event) : bool :=
  match ev with EvProbe _ => true | _ => false end.

(** An update, applied or not, that sets [remux_status] to [st]. *)
Definition writes_status (st : remux_state) (ev : event) : bool :=
  match ev with
  | EvUpdate _ p _ => bool_decide (set_remux_status p = Some st)
  | _ => false
  end.


(** ** Sample inputs *)

(** An environment in which every external call succeeds: a 1000-byte
    object, remuxed to 1100 bytes, probed at 45 seconds. *)
Definition env_ok : env :=
  {| tempDir := "/tmp/video-processor";
     at_skipped := "2024-01-01T00:00:01.000Z";
     at_claimed := "2024-01-01T00:00:00.000Z";
     at_remuxed := "2024-01-01T00:00:02.000Z";
     at_failed := "2024-01-01T00:00:03.000Z";
     elapsed_ms := 1200;
     db_skip_known := WApplied;
     db_claim := WApplied;
     head := HeadOk (Some 1000);
     dl_stream := Normal tt;
     dl_signed_url := Normal tt;
     dl_wget := Normal tt;
     dl_curl := Normal tt;
     stat_input := Normal 1000;
     ffprobe := Normal (JFin 45);
     db_skip_probed := WApplied;
     ffmpeg := {| error := None; stdout := ""; stderr := "" |};
     stat_output := Normal 1100;
     read_output := Normal tt;
     put_object := Normal tt;
     db_completed := WApplied;
     db_failed_missing := WApplied;
     db_failed_caught := WApplied |}.

Definition with_head (h : head_outcome) (e : env) : env :=
  {| tempDir := tempDir e; at_skipped := at_skipped e; at_claimed := at_claimed e;
     at_remuxed := at_remuxed e; at_failed := at_failed e; elapsed_ms := elapsed_ms e;
     db_skip_known := db_skip_known e; db_claim := db_claim e;
     head := h;
     dl_stream := dl_stream e; dl_signed_url := dl_signed_url e;
     dl_wget := dl_wget e; dl_curl := dl_curl e; stat_input := stat_input e;
     ffprobe := ffprobe e; db_skip_probed := db_skip_probed e; ffmpeg := ffmpeg e;
     stat_output := stat_output e; read_output := read_output e;
     put_object := put_object e; db_completed := db_completed e;
     db_failed_missing := db_failed_missing e;
     db_failed_caught := db_failed_caught e |}.

Definition with_ffprobe (c : completion jsnum) (e : env) : env :=
  {| tempDir := tempDir e; at_skipped := at_skipped e; at_claimed := at_claimed e;
     at_remuxed := at_remuxed e; at_failed := at_failed e; elapsed_ms := elapsed_ms e;
     db_skip_known := db_skip_known e; db_claim := db_claim e;
     head := head e;
     dl_stream := dl_stream e; dl_signed_url := dl_signed_url e;
     dl_wget := dl_wget e; dl_curl := dl_curl e; stat_input := stat_input e;
     ffprobe := c; db_skip_probed := db_skip_probed e; ffmpeg := ffmpeg e;
     stat_output := stat_output e; read_output := read_output e;
     put_object := put_object e; db_completed := db_completed e;
     db_failed_missing := db_failed_missing e;
     db_failed_caught := db_failed_caught e |}.

(** The job of the end-to-end scenario, with a given attempt counter,
    recorded duration and metadata. *)
Definition job (attempts : Z) (duration : option Q)
    (meta : option (gmap string jval)) : packing_record :=
  {| pr_id := "A";
     status := "completed";
     remux_status := Some Pending;
     remux_attempts := Some attempts;
     video_url := "recordings/x.webm";
     video_duration := duration;
     created_at := 10;
     metadata := meta;
     remuxed_at := None;
     remuxed_size := None |}.

Definition no_stats : stats_t :=
  {| processed := 0; failed := 0; skipped := 0; totalSaved := 0 |}.

Definition world_of (tbl : list packing_record) : world :=
  {| db := tbl; stats := no_stats |}.

(** A failing remux: exit status 1 and no success marker. *)
Definition ffmpeg_broken : exec_result :=
  {| error := Some {| code := CodeNumber 1; message := "Command failed" |};
     stdout := "Invalid data found when processing input";
     stderr := "" |}.

(** ** Eligibility *)

(** What the four filters ask of a row. *)
Definition eligible (row : packing_record) : Prop :=
  status row = "completed" /\
  remux_status row = Some Pending /\
  (exists n, remux_attempts row = Some n /\ n < 3) /\
  (exists d, video_duration row = Some d /\ (1 < d)%Q).

Definition is_eligible (row : packing_record) : bool :=
  forallb (fun f => filter_holds f row) (q_filters discovery_query).

Definition oldest_first (a b : packing_record) : Prop := created_at a <= created_at b.

(** ** Counter and metadata *)

(** [row.remux_attempts || 0]. *)
Definition attempts_of (row : packing_record) : Z := default 0 (remux_attempts row).

(** The update does not lower the counter of any row. *)
Definition counter_not_lowered (tbl : list packing_record) (id : string) (p : patch)
  : Prop :=
  Forall2 (fun before afterwards => attempts_of before <= attempts_of afterwards)
    tbl (update_rows id p tbl).

(** The update moves a job whose stored counter is already 3 nowhere but to
    [failed]. *)
Definition only_failed_once_capped (tbl : list packing_record) (id : string) (p : patch)
  : Prop :=
  (exists row, row ∈ tbl /\ pr_id row = id /\ remux_attempts row = Some 3) ->
  set_remux_status p = Some Failed.

(** No stored row of the job has a counter above [bound]. *)
Definition counter_within (id : string) (bound : Z) (tbl : list packing_record) : Prop :=
  forall row, row ∈ tbl -> pr_id row = id -> attempts_of row <= bound.

(** The five updates of the processor. *)
Inductive update_kind : Type :=
| ClaimWrite
| SkipKnownWrite
| SkipProbedWrite
| CompletedWrite
| FailedWrite.

Definition status_written (u : update_kind) : remux_state :=
  match u with
  | ClaimWrite => Processing
  | SkipKnownWrite | SkipProbedWrite => Skipped
  | CompletedWrite => Completed
  | FailedWrite => Failed
  end.

(** The metadata keys an update of that kind sets itself. *)
Definition keys_written (u : update_kind) : list string :=
  match u with
  | ClaimWrite => ["last_remux_attempt"]
  | SkipKnownWrite => ["skip_reason"; "skipped_at"]
  | SkipProbedWrite => ["skip_reason"; "detected_duration"; "skipped_at"]
  | CompletedWrite =>
      ["remux_processing_time_ms"; "original_size"; "size_saved";
       "compression_ratio"; "detected_duration"]
  | FailedWrite => ["remux_error"; "failed_at"]
  end.

(** The bag [m] holds, under the keys of the update, the values the update
    computes. *)
Definition holds_own_values (e : env) (u : update_kind) (m : gmap string jval) : Prop :=
  match u with
  | ClaimWrite => m !! "last_remux_attempt" = Some (JStr (at_claimed e))
  | SkipKnownWrite =>
      m !! "skip_reason" = Some (JStr "duration_too_short") /\
      m !! "skipped_at" = Some (JStr (at_skipped e))
  | SkipProbedWrite =>
      m !! "skip_reason" = Some (JStr "duration_too_short") /\
      (exists actualDuration, m !! "detected_duration" = Some (JNum actualDuration)) /\
      m !! "skipped_at" = Some (JStr (at_skipped e))
  | CompletedWrite =>
      exists inputSize outputSize actualDuration,
        m !! "remux_processing_time_ms" = Some (JInt (elapsed_ms e)) /\
        m !! "original_size" = Some (JInt inputSize) /\
        m !! "size_saved" = Some (JInt (inputSize - outputSize)) /\
        m !! "compression_ratio" = Some (JFixed2 (inputSize - outputSize) inputSize) /\
        m !! "detected_duration" = Some (JNum actualDuration)
  | FailedWrite =>
      exists reason,
        m !! "remux_error" = Some (JStr reason) /\
        m !! "failed_at" = Some (JStr (at_failed e))
  end.

(** The update keeps every key, with its value, of the metadata stored on the
    rows it is aimed at. *)
Definition metadata_preserved (tbl : list packing_record) (id : string) (p : patch)
  : Prop :=
  forall row, row ∈ tbl -> pr_id row = id ->
  forall k v, meta_lookup row k = Some v -> meta_lookup (apply_patch p row) k = Some v.

Definition is_remux (ev : event) : bool :=
  match ev with EvFFmpeg _ _ => true | _ => false end.

(** A download or a remux. *)
Definition is_download_or_remux (ev : event) : bool :=
  match ev with
  | EvGet _ _ | EvSignedUrl _ | EvWget _ | EvCurl _ | EvFFmpeg _ _ => true
  | _ => false
  end.

(** The HEAD request succeeds and reports a content length above 0. *)
Definition object_found (e : env) : Prop :=
  exists n, head e = HeadOk (Some n) /\ 0 < n.

(** ** Scheduling *)

(** The scheduling marks of a run: which promise is created, which settles. *)
Inductive mark : Type :=
| Launched (id : string)
| Settled (id : string).

Definition mark_of (ev : event) : option mark :=
  match ev with
  | EvLaunch id => Some (Launched id)
  | EvSettled id _ => Some (Settled id)
  | _ => None
  end.

Definition schedule (evs : list event) : list mark := omap mark_of evs.

(** A group's promises are all created, in list order, then all settle, in
    the order of their finishing times. *)
Definition group_schedule (finish : packing_record -> nat)
    (group : list packing_record) : list mark :=
  ((fun video => Launched (pr_id video)) <$> group)
  ++ ((fun video => Settled (pr_id video)) <$> settlement_order finish group).



(** The place of [id] in [ids], counted from 0. *)
Fixpoint position (id : string) (ids : list string) : nat :=
  match ids with
  | [] => 0
  | x :: rest => if String.eqb x id then 0 else S (position id rest)
  end.

(** The number of promises in flight after the marks [s], starting from
    [current]. *)
Fixpoint in_flight_after (current : nat) (s : list mark) : nat :=
  match s with
  | [] => current
  | Launched _ :: s' => in_flight_after (S current) s'
  | Settled _ :: s' => in_flight_after (pred current) s'
  end.

(** The largest number of promises in flight at any moment of [s]. *)
Fixpoint peak_in_flight (current : nat) (s : list mark) : nat :=
  match s with
  | [] => current
  | Launched _ :: s' => Nat.max current (peak_in_flight (S current) s')
  | Settled _ :: s' => Nat.max current (peak_in_flight (pred current) s')
  end.

Definition is_quiet (ev : event) : Prop := mark_of ev = None.

(** ** Scenario inputs *)

(** A pending, uploaded job of 45 seconds. *)
Definition pending_job (id : string) (created : Z) : packing_record :=
  {| pr_id := id;
     status := "completed";
     remux_status := Some Pending;
     remux_attempts := Some 0;
     video_url := "recordings/" +:+ id +:+ ".webm";
     video_duration := Some 45%Q;
     created_at := created;
     metadata := None;
     remuxed_at := None;
     remuxed_size := None |}.

Definition with_db_claim (o : write_outcome) (e : env) : env :=
  {| tempDir := tempDir e; at_skipped := at_skipped e; at_claimed := at_claimed e;
     at_remuxed := at_remuxed e; at_failed := at_failed e; elapsed_ms := elapsed_ms e;
     db_skip_known := db_skip_known e; db_claim := o;
     head := head e;
     dl_stream := dl_stream e; dl_signed_url := dl_signed_url e;
     dl_wget := dl_wget e; dl_curl := dl_curl e; stat_input := stat_input e;
     ffprobe := ffprobe e; db_skip_probed := db_skip_probed e; ffmpeg := ffmpeg e;
     stat_output := stat_output e; read_output := read_output e;
     put_object := put_object e; db_completed := db_completed e;
     db_failed_missing := db_failed_missing e;
     db_failed_caught := db_failed_caught e |}.

(** Four jobs are discovered; the claim write of job B throws, so its task
    rejects. *)
Definition cycle_with_rejection : cycle_env :=
  {| select_answer := SelectRows;
     job_env := fun video =>
       if String.eqb (pr_id video) "B"
       then with_db_claim (WThrow "fetch failed") env_ok
       else env_ok;
     finish_time := fun video =>
       if String.eqb (pr_id video) "B" then 0%nat
       else if String.eqb (pr_id video) "C" then 1%nat
       else 2%nat |}.

(** A cycle whose query answers with rows, whose tasks all get the answers
    of [e], and take the same time. *)
Definition cycle_of (e : env) : cycle_env :=
  {| select_answer := SelectRows;
     job_env := fun _ => e;
     finish_time := fun _ => 0%nat |}.

Definition four_jobs : world :=
  world_of [pending_job "D" 40; pending_job "B" 20; pending_job "A" 10;
            pending_job "C" 30].

(** ** Further vocabulary *)

Definition is_unlink (ev : event) : bool :=
  match ev with EvUnlink _ => true | _ => false end.

Definition is_put (ev : event) : bool :=
  match ev with EvPut _ _ => true | _ => false end.

Definition is_console_error (ev : event) : bool :=
  match ev with EvConsoleError _ => true | _ => false end.

(** The awaited update throws. *)
Definition write_throws (o : write_outcome) : bool :=
  match o with WThrow _ => true | _ => false end.

(** Where an event of a run of [processVideo] on [video] may point: the
    job's own row, its own object key and its own two scratch files. *)
Definition addresses_own (e : env) (video : packing_record) (ev : event) : Prop :=
  match ev with
  | EvUpdate id _ _ => id = pr_id video
  | EvHead key => key = video_url video
  | EvGet key path => key = video_url video /\ path = tempInput e video
  | EvSignedUrl key => key = video_url video
  | EvWget path => path = tempInput e video
  | EvCurl path => path = tempInput e video
  | EvStat path => path = tempInput e video \/ path = tempOutput e video
  | EvProbe path => path = tempInput e video
  | EvFFmpeg input output =>
      input = tempInput e video /\ output = tempOutput e video
  | EvReadFile path => path = tempOutput e video
  | EvPut path key => path = tempOutput e video /\ key = video_url video
  | EvUnlink path => path = tempInput e video \/ path = tempOutput e video
  | EvConsoleError _ => True
  | EvConsoleWarn _ => True
  | EvSelect => False
  | EvLaunch _ => False
  | EvSettled _ _ => False
  end.

(** The columns no update of the processor names. *)
Definition keeps_identity (row row' : packing_record) : Prop :=
  pr_id row' = pr_id row /\
  status row' = status row /\
  video_url row' = video_url row /\
  video_duration row' = video_duration row /\
  created_at row' = created_at row.

(** [tbl'] is [tbl] row for row: same identity columns everywhere, and the
    very same row wherever the [id] is not among [ids]. *)
Definition touches_only (ids : list string) (tbl tbl' : list packing_record) : Prop :=
  Forall2 (fun row row' => keeps_identity row row' /\ (pr_id row ∉ ids -> row' = row))
    tbl tbl'.

(** An update, if the event is one, is aimed at one of [ids]. *)
Definition updates_within (ids : list string) (ev : event) : Prop :=
  match ev with
  | EvUpdate id _ _ => id ∈ ids
  | _ => True
  end.

(** The ids of the promises created, in order. *)
Definition launched (s : list mark) : list string :=
  omap (fun m => match m with Launched id => Some id | Settled _ => None end) s.

(** The [k]-th group of the loop: [videos.slice(3 * k, 3 * k + 3)]. *)
Definition group_at (videos : list packing_record) (k : nat) : list packing_record :=
  slice (3 * k) (3 * k + 3) videos.

(** The number of rounds the loop takes over [n] jobs. *)
Definition rounds (n : nat) : nat := ((n + 2) / 3)%nat.

(** An update, if the event is one, moves the job away from [pending]. *)
Definition leaves_pending (ev : event) : Prop :=
  match ev with
  | EvUpdate _ p _ => exists st, set_remux_status p = Some st /\ st <> Pending
  | _ => True
  end.

(** An applied update aimed at [id]. *)
Definition is_applied_update_of (id : string) (ev : event) : bool :=
  match ev with
  | EvUpdate id' _ true => String.eqb id' id
  | _ => false
  end.

(** The row is stored with a status other than [pending]. *)
Definition not_pending (row : packing_record) : Prop :=
  exists st, remux_status row = Some st /\ st <> Pending.

(** A job store that answers with an error where it would have applied the
    update. *)
Definition refuse (o : write_outcome) : write_outcome :=
  match o with
  | WApplied => WError "refused"
  | _ => o
  end.

(** The environment [e] with a job store that applies nothing. *)
Definition refusing (e : env) : env :=
  {| tempDir := tempDir e; at_skipped := at_skipped e; at_claimed := at_claimed e;
     at_remuxed := at_remuxed e; at_failed := at_failed e; elapsed_ms := elapsed_ms e;
     db_skip_known := refuse (db_skip_known e); db_claim := refuse (db_claim e);
     head := head e;
     dl_stream := dl_stream e; dl_signed_url := dl_signed_url e;
     dl_wget := dl_wget e; dl_curl := dl_curl e; stat_input := stat_input e;
     ffprobe := ffprobe e; db_skip_probed := refuse (db_skip_probed e);
     ffmpeg := ffmpeg e;
     stat_output := stat_output e; read_output := read_output e;
     put_object := put_object e; db_completed := refuse (db_completed e);
     db_failed_missing := refuse (db_failed_missing e);
     db_failed_caught := refuse (db_failed_caught e) |}.

(** The event without the store's acknowledgement. *)
Definition forget_applied (ev : event) : event :=
  match ev with
  | EvUpdate id p _ => EvUpdate id p false
  | _ => ev
  end.

(** * Properties *)

(** ** Strings *)

Lemma prefix_spec (needle haystack : string) :
  String.prefix needle haystack = true <-> exists rest, haystack = needle +:+ rest.
Proof.
  revert haystack.
  induction needle as [|c needle IH]; intros [|c' haystack]; simpl.
  - split; [intros _; by exists "" | done].
  - split; [intros _; by exists (String c' haystack) | done].
  - split; [done | intros [rest Hrest]; discriminate].
  - destruct (Ascii.ascii_dec c c') as [->|Hne].
    + rewrite IH. split; intros [rest Hrest]; exists rest.
      * by rewrite Hrest.
      * by injection Hrest.
    + split; [done | intros [rest Hrest]; injection Hrest; congruence].
Qed.

Lemma includes_spec (needle haystack : string) :
  includes needle haystack = true <->
  exists before rest, haystack = before +:+ needle +:+ rest.
Proof.
  induction haystack as [|c haystack IH]; cbn [includes].
  - destruct (String.prefix needle "") eqn:Hp.
    + split; [intros _ | done].
      apply prefix_spec in Hp as [rest Hrest]. by exists "", rest.
    + split; [done | intros (before & rest & Heq)].
      destruct before; [|discriminate]. simpl in Heq.
      assert (String.prefix needle "" = true) as Hp'
        by (apply prefix_spec; by exists rest).
      congruence.
  - destruct (String.prefix needle (String c haystack)) eqn:Hp.
    + split; [intros _ | done].
      apply prefix_spec in Hp as [rest Hrest]. by exists "", rest.
    + rewrite IH. split.
      * intros (before & rest & ->). by exists (String c before), rest.
      * intros (before & rest & Heq). destruct before as [|c' before].
        -- simpl in Heq.
           assert (String.prefix needle (String c haystack) = true) as Hp'
             by (apply prefix_spec; by exists rest).
           congruence.
        -- injection Heq as -> ->. by exists before, rest.
Qed.

Lemma substring0_length (n : nat) (s : string) :
  (String.length (substring0 n s) <= n)%nat.
Proof.
  unfold substring0. revert s.
  induction n as [|n IH]; intros [|c s]; simpl; try lia.
  specialize (IH s). lia.
Qed.

Lemma substring0_prefix (n : nat) (s : string) :
  exists rest, s = substring0 n s +:+ rest.
Proof.
  unfold substring0. revert s.
  induction n as [|n IH]; intros [|c s]; simpl.
  - by exists "".
  - by exists (String c s).
  - by exists "".
  - destruct (IH s) as [rest Hrest]. exists rest. by rewrite Hrest at 1.
Qed.

(** ** The FFmpeg invocation *)

Lemma code_not_zero_spec (c : exec_code) :
  code_not_zero c = true <-> c <> CodeNumber 0.
Proof.
  destruct c as [z| |s]; simpl; [|done..].
  destruct (Z.eqb_spec z 0) as [->|Hz]; simpl; split; congruence.
Qed.

Lemma ffmpeg_callback_thrown (r : exec_result) :
  real_failure r ->
  ffmpeg_callback r = Thrown ("FFmpeg failed: " +:+ substring0 500 (diagnostic r)).
Proof.
  intros (err & Herr & Hcode & Hmarker).
  unfold ffmpeg_callback, diagnostic. rewrite Herr. simpl from_option.
  apply code_not_zero_spec in Hcode. rewrite Hcode.
  destruct (includes "muxing overhead" (stdout r)) eqn:Hinc; [|done].
  apply includes_spec in Hinc. contradiction.
Qed.

Lemma ffmpeg_callback_normal (r : exec_result) :
  ~ real_failure r -> ffmpeg_callback r = Normal tt.
Proof.
  intros Hnot. unfold ffmpeg_callback.
  destruct (error r) as [err|] eqn:Herr; [|done].
  destruct (code_not_zero (code err)) eqn:Hcode; [|done].
  destruct (includes "muxing overhead" (stdout r)) eqn:Hinc; [done|].
  exfalso. apply Hnot. exists err. split; [done|]. split.
  - by apply code_not_zero_spec.
  - intros Hocc. apply includes_spec in Hocc. congruence.
Qed.

Lemma real_failure_dec (r : exec_result) : real_failure r \/ ~ real_failure r.
Proof.
  destruct (error r) as [err|] eqn:Herr.
  - destruct (code_not_zero (code err)) eqn:Hcode.
    + destruct (includes "muxing overhead" (stdout r)) eqn:Hinc.
      * right. intros (err' & _ & _ & Hno). apply Hno. by apply includes_spec.
      * left. exists err. split; [done|]. split; [by apply code_not_zero_spec|].
        intros Hocc. apply includes_spec in Hocc. congruence.
    + right. intros (err' & Herr' & Hne & _).
      apply code_not_zero_spec in Hne. congruence.
  - right. intros (err' & Herr' & _). congruence.
Qed.

(** C6. [executeFFmpeg] rejects exactly when the run is a real failure:
    [exec] reported an error with a code other than 0 and the text
    ['muxing overhead'] is absent from the standard output. The rejection
    carries ["FFmpeg failed: "] followed by the first 500 characters at most
    of [stderr || stdout || error.message]; in every other case (no error, or
    an error with the marker present) it resolves, whatever the diagnostic
    stream holds. *)
Theorem executeFFmpeg_rejects_iff_real_failure
    (e : env) (input output : string) (w : world) :
  let r := executeFFmpeg e input output w in
  let excerpt := substring0 500 (diagnostic (ffmpeg e)) in
  (outcome r = Thrown ("FFmpeg failed: " +:+ excerpt) <-> real_failure (ffmpeg e)) /\
  (outcome r = Normal tt <-> ~ real_failure (ffmpeg e)) /\
  (String.length excerpt <= 500)%nat /\
  (exists rest, diagnostic (ffmpeg e) = excerpt +:+ rest) /\
  after r = w /\
  events r = [EvFFmpeg input output].
Proof.
  simpl. repeat split.
  - intros Hthrown. destruct (real_failure_dec (ffmpeg e)) as [Hf|Hn]; [done|].
    rewrite (ffmpeg_callback_normal _ Hn) in Hthrown. discriminate.
  - apply ffmpeg_callback_thrown.
  - intros Hnormal Hf.
    rewrite (ffmpeg_callback_thrown _ Hf) in Hnormal. discriminate.
  - apply ffmpeg_callback_normal.
  - apply substring0_length.
  - apply substring0_prefix.
Qed.

(** ** Reasoning about runs *)

Arguments spread : simpl never.
Arguments skip_known_patch : simpl never.
Arguments claim_patch : simpl never.
Arguments skip_probed_patch : simpl never.
Arguments completed_patch : simpl never.
Arguments failed_patch : simpl never.
Arguments tempInput : simpl never.
Arguments tempOutput : simpl never.
Arguments update_rows : simpl never.
Arguments attempt_number : simpl never.
Arguments metadata_or_empty : simpl never.

Lemma replay_app (evs1 evs2 : list event) (tbl : list packing_record) :
  replay (evs1 ++ evs2) tbl = replay evs2 (replay evs1 tbl).
Proof.
  revert tbl. induction evs1 as [|ev evs1 IH]; intros tbl; [done|].
  destruct ev; simpl; try apply IH.
  match goal with applied : bool |- _ => destruct applied end; apply IH.
Qed.

(** A table invariant that every applied update preserves, and under which
    it satisfies [R], gives [R] at every write. *)
Lemma each_write_intro (R : list packing_record -> string -> patch -> Prop)
    (Inv : list packing_record -> Prop) (evs : list event) (tbl : list packing_record) :
  Inv tbl ->
  Forall (fun ev => match ev with
                    | EvUpdate id p true =>
                        forall t, Inv t -> R t id p /\ Inv (update_rows id p t)
                    | _ => True
                    end) evs ->
  each_write R tbl evs.
Proof.
  intros Hinv Hall. revert tbl Hinv.
  induction Hall as [|ev evs Hev _ IH]; intros tbl Hinv; [done|].
  destruct ev; simpl; auto.
  match goal with applied : bool |- _ => destruct applied end; auto.
  destruct (Hev tbl Hinv) as [HR Hinv']. auto.
Qed.

Section Emits.
Context (P : event -> Prop).

Lemma emits_ret {A} (a : A) : emits P (ret a).
Proof. intros w. constructor. Qed.

Lemma emits_bind {A B} (m : M A) (k : A -> M B) :
  emits P m -> (forall a, emits P (k a)) -> emits P (m ≫= k).
Proof.
  intros Hm Hk w. unfold mbind, M_bind, bind.
  specialize (Hm w). destruct (m w) as [[a|msg] w1 evs1]; simpl in *; [|done].
  specialize (Hk a w1). destruct (k a w1) as [c w2 evs2]; simpl in *.
  by apply Forall_app.
Qed.

Lemma emits_try_catch {A} (m : M A) (handler : string -> M A) :
  emits P m -> (forall msg, emits P (handler msg)) -> emits P (try_catch m handler).
Proof.
  intros Hm Hh w. unfold try_catch.
  specialize (Hm w). destruct (m w) as [[a|msg] w1 evs1]; simpl in *; [done|].
  specialize (Hh msg w1). destruct (handler msg w1) as [c w2 evs2]; simpl in *.
  by apply Forall_app.
Qed.

Lemma emits_try_finally {A} (m : M A) (fin : M unit) :
  emits P m -> emits P fin -> emits P (try_finally m fin).
Proof.
  intros Hm Hf w. unfold try_finally.
  specialize (Hm w). destruct (m w) as [c w1 evs1]; simpl in *.
  specialize (Hf w1). destruct (fin w1) as [[[]|msg] w2 evs2]; simpl in *;
    by apply Forall_app.
Qed.

Lemma emits_emit (ev : event) : P ev -> emits P (emit ev).
Proof. intros Hev w. by repeat constructor. Qed.

Lemma emits_await {A} (ev : event) (c : completion A) : P ev -> emits P (await ev c).
Proof. intros Hev w. by repeat constructor. Qed.

Lemma emits_modify_stats (f : stats_t -> stats_t) : emits P (modify_stats f).
Proof. intros w. constructor. Qed.

Lemma emits_db_update (o : write_outcome) (id : string) (p : patch) :
  (forall applied, P (EvUpdate id p applied)) -> emits P (db_update o id p).
Proof. intros Hev w. destruct o; by repeat constructor. Qed.

Lemma emits_cleanup (files : list string) :
  Forall (fun file => P (EvUnlink file)) files -> emits P (cleanup files).
Proof.
  induction 1 as [|file files Hfile _ IH]; simpl.
  - apply emits_ret.
  - apply emits_bind; [by apply emits_emit | done].
Qed.
End Emits.

Lemma logged_ret {A} (a : A) : logged (ret a).
Proof. done. Qed.

Lemma logged_bind {A B} (m : M A) (k : A -> M B) :
  logged m -> (forall a, logged (k a)) -> logged (m ≫= k).
Proof.
  intros Hm Hk w. unfold mbind, M_bind, bind.
  specialize (Hm w). destruct (m w) as [[a|msg] w1 evs1]; simpl in *; [|done].
  specialize (Hk a w1). destruct (k a w1) as [c w2 evs2]; simpl in *.
  by rewrite replay_app, <- Hm.
Qed.

Lemma logged_try_catch {A} (m : M A) (handler : string -> M A) :
  logged m -> (forall msg, logged (handler msg)) -> logged (try_catch m handler).
Proof.
  intros Hm Hh w. unfold try_catch.
  specialize (Hm w). destruct (m w) as [[a|msg] w1 evs1]; simpl in *; [done|].
  specialize (Hh msg w1). destruct (handler msg w1) as [c w2 evs2]; simpl in *.
  by rewrite replay_app, <- Hm.
Qed.

Lemma logged_try_finally {A} (m : M A) (fin : M unit) :
  logged m -> logged fin -> logged (try_finally m fin).
Proof.
  intros Hm Hf w. unfold try_finally.
  specialize (Hm w). destruct (m w) as [c w1 evs1]; simpl in *.
  specialize (Hf w1). destruct (fin w1) as [[[]|msg] w2 evs2]; simpl in *;
    by rewrite replay_app, <- Hm.
Qed.

Lemma logged_emit (ev : event) :
  (forall id p, ev <> EvUpdate id p true) -> logged (emit ev).
Proof.
  intros Hev w. simpl. destruct ev; try done.
  match goal with applied : bool |- _ => destruct applied end; [|done].
  by edestruct Hev.
Qed.

Lemma logged_await {A} (ev : event) (c : completion A) :
  (forall id p, ev <> EvUpdate id p true) -> logged (await ev c).
Proof.
  intros Hev w. simpl. destruct ev; try done.
  match goal with applied : bool |- _ => destruct applied end; [|done].
  by edestruct Hev.
Qed.

Lemma logged_modify_stats (f : stats_t -> stats_t) : logged (modify_stats f).
Proof. done. Qed.

Lemma logged_db_update (o : write_outcome) (id : string) (p : patch) :
  logged (db_update o id p).
Proof. intros w. by destruct o. Qed.

Lemma logged_cleanup (files : list string) : logged (cleanup files).
Proof.
  induction files as [|file files IH]; simpl.
  - apply logged_ret.
  - apply logged_bind; [by apply logged_emit | done].
Qed.

(** Splits a goal [emits P m] or [logged m] along the structure of [m]. *)
Ltac walk :=
  repeat first
    [ apply emits_ret | apply logged_ret
    | apply emits_modify_stats | apply logged_modify_stats
    | apply logged_db_update | apply logged_cleanup
    | apply emits_bind; [|intros ?] | apply logged_bind; [|intros ?]
    | apply emits_try_catch; [|intros ?] | apply logged_try_catch; [|intros ?]
    | apply emits_try_finally | apply logged_try_finally
    | apply emits_emit | apply logged_emit; [done]
    | apply emits_await | apply logged_await; [done]
    | apply emits_db_update; intros ?
    | apply emits_cleanup; repeat constructor
    | match goal with
      | |- emits _ (if ?b then _ else _) => destruct b eqn:?
      | |- logged (if ?b then _ else _) => destruct b eqn:?
      | |- emits _ (match ?x with _ => _ end) => destruct x eqn:?
      | |- logged (match ?x with _ => _ end) => destruct x eqn:?
      end ].

Lemma processVideo_logged (e : env) (video : packing_record) :
  logged (processVideo e video).
Proof.
  unfold processVideo, attempt, on_error, remux_and_store, checkR2File,
    downloadFromR2, uploadToR2, getVideoDuration, executeFFmpeg, markAsFailed.
  walk.
Qed.

(** *** Following one run

    [unfold_processor] exposes the decision tree of a run over the
    environment's answers; [explore] walks it, splitting on whatever answer
    blocks the evaluation. *)
Ltac unfold_processor :=
  unfold processVideo, attempt, on_error, remux_and_store, checkR2File,
    downloadFromR2, uploadToR2, getVideoDuration, executeFFmpeg, markAsFailed,
    cleanup;
  unfold mbind, M_bind, bind, try_catch, try_finally, ret, emit, await,
    modify_stats, db_update.

Ltac reduce :=
  cbn [foldr outcome after events app negb content_length_positive db stats].

Ltac stuck_on t :=
  lazymatch t with
  | match ?x with _ => _ end => stuck_on x
  | negb ?x => stuck_on x
  | ?f _ =>
      lazymatch f with
      | match ?x with _ => _ end => stuck_on x
      | _ => t
      end
  | _ => t
  end.

Ltac explore :=
  repeat (reduce;
          match goal with
          | |- context [match ?x with _ => _ end] =>
              let y := stuck_on x in
              first [ match goal with H : y = _ |- _ => rewrite H end
                    | destruct y eqn:? ]
          end);
  reduce.

(** *** Rows after an update *)

Lemma elem_of_update_rows (row' : packing_record) (id : string) (p : patch)
    (tbl : list packing_record) :
  row' ∈ update_rows id p tbl ->
  exists row, row ∈ tbl /\ pr_id row' = pr_id row /\
    (pr_id row = id -> row' = apply_patch p row) /\
    (pr_id row <> id -> row' = row).
Proof.
  unfold update_rows. intros (row & -> & Hin)%list_elem_of_fmap.
  exists row. split; [done|].
  destruct (String.eqb_spec (pr_id row) id) as [Heq|Hne]; simpl; done.
Qed.

Lemma spread_lookup_other (base : gmap string jval) (props : list (string * jval))
    (k : string) :
  k ∉ props.*1 -> spread base props !! k = base !! k.
Proof.
  unfold spread. revert base.
  induction props as [|[k' v'] props IH]; intros base Hk; [done|].
  simpl in *. apply not_elem_of_cons in Hk as [Hne Hk].
  rewrite IH by done. by apply lookup_insert_ne.
Qed.

Lemma spread_keeps_keys (base : gmap string jval) (props : list (string * jval))
    (k : string) :
  is_Some (base !! k) -> is_Some (spread base props !! k).
Proof.
  unfold spread. revert base.
  induction props as [|[k' v'] props IH]; intros base Hk; [done|].
  simpl. apply IH. rewrite lookup_insert_is_Some'. by right.
Qed.

Lemma patched_row (row' : packing_record) (id : string) (p : patch)
    (tbl : list packing_record) :
  row' ∈ update_rows id p tbl -> pr_id row' = id ->
  exists row, row ∈ tbl /\ pr_id row = id /\ row' = apply_patch p row.
Proof.
  intros (row & Hin & Hid & Hpatched & _)%elem_of_update_rows Hrow'.
  exists row. rewrite <- Hid. split; [done|]. split; [done|].
  apply Hpatched. congruence.
Qed.

Lemma update_rows_attempts (id : string) (p : patch) (tbl : list packing_record) :
  set_remux_attempts p = None ->
  remux_attempts <$> update_rows id p tbl = remux_attempts <$> tbl.
Proof.
  intros Hp. unfold update_rows. rewrite <- list_fmap_compose.
  apply list_fmap_ext. intros _ row _. simpl.
  destruct (String.eqb (pr_id row) id); [|done]. simpl. by rewrite Hp.
Qed.

(** Evaluates a lookup in a [spread] whose property names are literals. *)
Ltac spread_lookup :=
  unfold spread; cbn [foldl fst snd];
  repeat (rewrite lookup_insert_ne by done);
  rewrite ?lookup_insert_eq.

(** Finds an event in an explicit list. *)
Ltac find_event :=
  apply list_elem_of_In; cbn [In];
  repeat first [left; reflexivity | right].

Lemma known_too_short_spec (video : packing_record) :
  known_too_short video = true <->
  exists d, video_duration video = Some d /\ ~ (d == 0)%Q /\ (d <= 1)%Q.
Proof.
  unfold known_too_short. destruct (video_duration video) as [d|]; simpl.
  - rewrite andb_true_iff, negb_true_iff, Qle_bool_iff.
    split.
    + intros [Hz Hle]. exists d. split; [done|]. split; [|done].
      intros Heq. apply Qeq_bool_iff in Heq. congruence.
    + intros (d' & [= <-] & Hnz & Hle). split; [|done].
      destruct (Qeq_bool d 0) eqn:Heq; [|done].
      apply Qeq_bool_iff in Heq. contradiction.
  - split; [done | intros (d & Hd & _); discriminate].
Qed.

(** ** The skip paths *)

(** C1. A job whose recorded duration is a non-zero value of at most one
    second is skipped before the claim step: the run consists of the single
    update to [skipped], which merges [skip_reason = duration_too_short],
    leaves [remux_attempts] alone and is preceded by no object-store request.
    A job whose duration is detected by the probe to be at most one second is
    written [skipped] with [skip_reason] and [detected_duration]. Neither run
    issues a write to [completed]; once the skip write is applied every row
    of the job has [remux_status = skipped]. *)
Theorem short_videos_end_skipped (e : env) (video : packing_record) (w : world) :
  let r := processVideo e video w in
  (forall d, video_duration video = Some d -> ~ (d == 0)%Q -> (d <= 1)%Q ->
     (exists applied,
        events r = [EvUpdate (pr_id video) (skip_known_patch e video) applied]) /\
     set_remux_status (skip_known_patch e video) = Some Skipped /\
     set_remux_attempts (skip_known_patch e video) = None /\
     remux_attempts <$> db (after r) = remux_attempts <$> db w /\
     (db_skip_known e = WApplied ->
      forall row, row ∈ db (after r) -> pr_id row = pr_id video ->
        remux_status row = Some Skipped /\
        meta_lookup row "skip_reason" = Some (JStr "duration_too_short"))) /\
  (forall d,
     existsb is_probe (events r) = true ->
     outcome (getVideoDuration e (tempInput e video) w) = Normal d ->
     num_le_1 d = true ->
     (exists applied,
        EvUpdate (pr_id video) (skip_probed_patch e video d) applied ∈ events r) /\
     set_remux_status (skip_probed_patch e video d) = Some Skipped /\
     existsb (writes_status Completed) (events r) = false /\
     (db_skip_probed e = WApplied ->
      forall row, row ∈ db (after r) -> pr_id row = pr_id video ->
        remux_status row = Some Skipped /\
        meta_lookup row "skip_reason" = Some (JStr "duration_too_short") /\
        meta_lookup row "detected_duration" = Some (JNum d))).
Proof.
  intros r. subst r. split.
  - intros d Hd Hnz Hle.
    assert (known_too_short video = true) as Hshort
      by (apply known_too_short_spec; eauto).
    unfold processVideo. rewrite Hshort.
    unfold mbind, M_bind, bind, modify_stats, db_update.
    split; [|split; [done|split; [done|]]].
    + destruct (db_skip_known e); by eexists.
    + split.
      * destruct (db_skip_known e); reduce; try done.
        by apply update_rows_attempts.
      * intros ->. reduce. intros row' Hin Hid.
        apply patched_row in Hin as (row & _ & _ & ->); [|done].
        split; [done|]. unfold meta_lookup, skip_known_patch. simpl.
        by spread_lookup.
  - intros d. unfold_processor. explore.
    all: cbn [existsb is_probe orb writes_status]; try discriminate.
    all: intros _ [= <-] Hle; try congruence.
    all: (split; [eexists; find_event|]).
    all: (split; [done|]).
    all: (split; [by rewrite ?bool_decide_eq_false_2 by done|]).
    all: try discriminate.
    all: intros _ row' Hin Hid.
    all: apply patched_row in Hin as (row & _ & _ & ->); [|done].
    all: split; [done|].
    all: unfold meta_lookup, skip_probed_patch; simpl.
    all: split; by spread_lookup.
Qed.

Ltac leb_facts :=
  repeat match goal with
         | H : (_ <=? _) = true |- _ => apply Z.leb_le in H
         | H : (_ <=? _) = false |- _ => apply Z.leb_gt in H
         end.

Ltac patched_rows :=
  repeat match goal with
         | H : _ ∈ update_rows _ _ _ |- _ =>
             apply patched_row in H as (? & H & ? & ->); [|done]
         end.

Ltac leaf :=
  repeat split; intros; try discriminate; try done;
  try (eexists; find_event);
  patched_rows;
  unfold meta_lookup, claim_patch, failed_patch; simpl;
  try spread_lookup; try done.

Lemma short_videos_end_skipped_witness :
  (let video := job 0 (Some (1 # 2)%Q) None in
   video_duration video = Some (1 # 2)%Q /\ ~ ((1 # 2) == 0)%Q /\ ((1 # 2) <= 1)%Q /\
   db_skip_known env_ok = WApplied /\
   forall row, row ∈ db (after (processVideo env_ok video (world_of [video]))) ->
     pr_id row = pr_id video ->
     remux_status row = Some Skipped /\
     meta_lookup row "skip_reason" = Some (JStr "duration_too_short")) /\
  (let video := job 0 (Some 0%Q) None in
   let e := with_ffprobe (Thrown "ffprobe: not found") env_ok in
   let r := processVideo e video (world_of [video]) in
   existsb is_probe (events r) = true /\
   outcome (getVideoDuration e (tempInput e video) (world_of [video])) = Normal (JFin 0) /\
   num_le_1 (JFin 0) = true /\
   db_skip_probed e = WApplied /\
   forall row, row ∈ db (after r) -> pr_id row = pr_id video ->
     remux_status row = Some Skipped /\
     meta_lookup row "skip_reason" = Some (JStr "duration_too_short") /\
     meta_lookup row "detected_duration" = Some (JNum (JFin 0))).
Proof.
  split.
  - cbv zeta. split; [reflexivity|]. split; [by vm_compute|]. split; [by vm_compute|].
    split; [reflexivity|].
    pose proof (short_videos_end_skipped env_ok (job 0 (Some (1 # 2)%Q) None)
                  (world_of [job 0 (Some (1 # 2)%Q) None])) as [Hknown _].
    destruct (Hknown (1 # 2)%Q) as (_ & _ & _ & _ & Hrows);
      [reflexivity | by vm_compute | by vm_compute |].
    exact (Hrows eq_refl).
  - cbv zeta. split; [by vm_compute|]. split; [by vm_compute|].
    split; [reflexivity|]. split; [reflexivity|].
    pose proof (short_videos_end_skipped (with_ffprobe (Thrown "ffprobe: not found") env_ok)
                  (job 0 (Some 0%Q) None) (world_of [job 0 (Some 0%Q) None])) as [_ Hprobed].
    destruct (Hprobed (JFin 0)) as (_ & _ & _ & Hrows);
      [by vm_compute | by vm_compute | reflexivity |].
    exact (Hrows eq_refl).
Defined.

(** ** The failure policy *)



(** ** The discovery query *)

Lemma is_eligible_spec (row : packing_record) : is_eligible row = true <-> eligible row.
Proof.
  unfold is_eligible, eligible. cbn [q_filters discovery_query forallb filter_holds column_value].
  rewrite !andb_true_iff. cbn [sql_eq].
  rewrite String.eqb_eq.
  assert (from_option (fun s => VText (remux_state_text s)) VNull (remux_status row)
            = VText "pending" <-> remux_status row = Some Pending) as Hpending.
  { destruct (remux_status row) as [[]|]; simpl; split; congruence. }
  assert (sql_eq (from_option (fun s => VText (remux_state_text s)) VNull (remux_status row))
            (VText "pending") = true <-> remux_status row = Some Pending) as Hstate.
  { destruct (remux_status row) as [[]|]; simpl; split; congruence. }
  assert (sql_lt (from_option (fun z => VNumber (inject_Z z)) VNull (remux_attempts row))
            (VNumber 3) = true <-> exists n, remux_attempts row = Some n /\ n < 3) as Hattempts.
  { destruct (remux_attempts row) as [n|]; simpl.
    - rewrite negb_true_iff. split.
      + intros Hle. exists n. split; [done|].
        destruct (Z.lt_ge_cases n 3) as [|Hge]; [done|].
        assert (Qle_bool 3 (inject_Z n) = true) as Hle'
          by (apply Qle_bool_iff; change 3%Q with (inject_Z 3); by rewrite <- Zle_Qle).
        congruence.
      + intros (n' & [= <-] & Hlt).
        destruct (Qle_bool 3 (inject_Z n)) eqn:Hle; [|done].
        apply Qle_bool_iff in Hle. change 3%Q with (inject_Z 3) in Hle.
        rewrite <- Zle_Qle in Hle. lia.
    - split; [done | intros (n & Hn & _); discriminate]. }
  assert (sql_lt (VNumber 1) (from_option VNumber VNull (video_duration row)) = true
          <-> exists d, video_duration row = Some d /\ (1 < d)%Q) as Hduration.
  { destruct (video_duration row) as [d|]; simpl.
    - rewrite negb_true_iff. split.
      + intros Hle. exists d. split; [done|].
        apply Qnot_le_lt. intros Hle'. apply Qle_bool_iff in Hle'. congruence.
      + intros (d' & [= <-] & Hlt).
        destruct (Qle_bool d 1) eqn:Hle; [|done].
        apply Qle_bool_iff in Hle. by apply Qlt_not_le in Hlt.
    - split; [done | intros (d & Hd & _); discriminate]. }
  rewrite Hstate, Hattempts, Hduration. tauto.
Qed.

Lemma insert_by_created_perm (r : packing_record) (l : list packing_record) :
  insert_by_created r l ≡ₚ r :: l.
Proof.
  induction l as [|x l IH]; simpl; [done|].
  destruct (created_at r <? created_at x); [done|].
  rewrite IH. apply perm_swap.
Qed.

Lemma order_by_created_perm (l : list packing_record) : order_by_created l ≡ₚ l.
Proof.
  induction l as [|x l IH]; simpl; [done|].
  by rewrite insert_by_created_perm, IH.
Qed.

Lemma insert_by_created_sorted (r : packing_record) (l : list packing_record) :
  StronglySorted oldest_first l -> StronglySorted oldest_first (insert_by_created r l).
Proof.
  induction 1 as [|x l Hsorted IH Hx]; simpl.
  - by repeat constructor.
  - destruct (Z.ltb_spec (created_at r) (created_at x)) as [Hlt|Hge].
    + constructor; [by constructor|].
      constructor; [unfold oldest_first; lia|].
      eapply Forall_impl; [exact Hx|]. unfold oldest_first. intros; lia.
    + constructor; [done|].
      rewrite insert_by_created_perm. by constructor.
Qed.

Lemma order_by_created_sorted (l : list packing_record) :
  StronglySorted oldest_first (order_by_created l).
Proof.
  induction l as [|x l IH]; simpl; [constructor|].
  by apply insert_by_created_sorted.
Qed.

Lemma sorted_take_drop (n : nat) (l : list packing_record) :
  StronglySorted oldest_first l ->
  StronglySorted oldest_first (take n l) /\
  forall a b, a ∈ take n l -> b ∈ drop n l -> oldest_first a b.
Proof.
  intros Hsorted. revert n.
  induction Hsorted as [|x l Hsorted IH Hx]; intros [|n]; simpl.
  - split; [constructor | intros a b Ha; by apply elem_of_nil in Ha].
  - split; [constructor | intros a b Ha; by apply elem_of_nil in Ha].
  - split; [constructor | intros a b Ha; by apply elem_of_nil in Ha].
  - destruct (IH n) as [Htake Hsplit]. split.
    + constructor; [done|]. rewrite Forall_forall in Hx |- *.
      intros a Ha. apply Hx.
      by apply (sublist_subseteq _ _ (sublist_take l n)).
    + intros a b [->|Ha]%elem_of_cons Hb; [|by apply Hsplit].
      rewrite Forall_forall in Hx. apply Hx.
      by apply (sublist_subseteq _ _ (sublist_drop l n)).
Qed.

Lemma elem_of_run_select (row : packing_record) (tbl : list packing_record) :
  row ∈ run_select discovery_query tbl -> row ∈ tbl /\ eligible row.
Proof.
  unfold run_select. intros Hin.
  assert (row ∈ List.filter is_eligible tbl) as Hfiltered.
  { rewrite <- (order_by_created_perm (List.filter is_eligible tbl)).
    eapply sublist_subseteq; [apply sublist_take | exact Hin]. }
  apply list_elem_of_In, filter_In in Hfiltered as [Htbl Hok].
  split; [by apply list_elem_of_In | by apply is_eligible_spec].
Qed.

(** C5. The discovery query answers with rows of the table that all have
    upload status [completed], [remux_status = pending], [remux_attempts < 3]
    and a recorded duration strictly above 1 (so a null or zero duration is
    excluded); they come oldest first and are at most 5, and every eligible
    row left out is no older than any row returned (none is left out unless 5
    are returned). When nothing is eligible, and when the query fails, by an
    error answer or by throwing, the cycle ends normally, leaves the world
    unchanged and issues no update; the failure is logged. *)
Theorem discovery_selects_oldest_eligible (ce : cycle_env) (w : world) :
  let found := run_select discovery_query (db w) in
  let quiet (evs : list event) := {| outcome := Normal tt; after := w; events := evs |} in
  outcome (select_rows SelectRows discovery_query w)
    = Normal {| data := Some found; select_error := None |} /\
  (forall row, row ∈ found -> row ∈ db w /\ eligible row) /\
  (forall row, video_duration row = None \/ video_duration row = Some 0%Q ->
     ~ eligible row) /\
  (length found <= 5)%nat /\
  StronglySorted oldest_first found /\
  (exists later,
     List.filter is_eligible (db w) ≡ₚ found ++ later /\
     (forall a b, a ∈ found -> b ∈ later -> oldest_first a b) /\
     (later <> [] -> length found = 5%nat)) /\
  (forall row, is_eligible row = true <-> eligible row) /\
  (select_answer ce = SelectRows -> found = [] -> processVideos ce w = quiet [EvSelect]) /\
  (forall msg, select_answer ce = SelectError msg ->
     processVideos ce w
       = quiet [EvSelect; EvConsoleError ("Database query error: " +:+ msg)]) /\
  (forall msg, select_answer ce = SelectThrow msg ->
     processVideos ce w = quiet [EvSelect; EvConsoleError ("Process error: " +:+ msg)]).
Proof.
  cbv zeta.
  pose proof (order_by_created_sorted (List.filter is_eligible (db w))) as Hsorted.
  destruct (sorted_take_drop 5 _ Hsorted) as [Htake Hsplit].
  split; [done|].
  split; [intros row; apply elem_of_run_select|].
  split.
  { intros row Hd (_ & _ & _ & d & Hsome & Hlt).
    destruct Hd as [Hd|Hd]; rewrite Hd in Hsome; [done|].
    injection Hsome as <-. vm_compute in Hlt. discriminate. }
  split; [unfold run_select; rewrite length_take; apply Nat.le_min_l|].
  split; [exact Htake|].
  split.
  { exists (drop 5 (order_by_created (List.filter is_eligible (db w)))).
    split; [|split].
    - unfold run_select. cbn [q_limit discovery_query].
      change (fun r => forallb (fun f => filter_holds f r) (q_filters discovery_query))
        with is_eligible.
      by rewrite take_drop, order_by_created_perm.
    - exact Hsplit.
    - intros Hlater. unfold run_select. cbn [q_limit discovery_query].
      change (fun r => forallb (fun f => filter_holds f r) (q_filters discovery_query))
        with is_eligible.
      apply length_take_le.
      destruct (Nat.le_gt_cases 5
                 (length (order_by_created (List.filter is_eligible (db w)))))
        as [|Hshort]; [done|].
      rewrite drop_ge in Hlater by lia. done. }
  split; [apply is_eligible_spec|].
  unfold processVideos, select_rows, try_catch, mbind, M_bind, bind, emit, ret.
  split; [|split].
  - intros -> Hnone. cbn [outcome after events select_error data]. by rewrite Hnone.
  - by intros msg ->.
  - by intros msg ->.
Qed.

Lemma discovery_selects_oldest_eligible_witness :
  let ce := {| select_answer := SelectError "connection refused";
               job_env := fun _ => env_ok;
               finish_time := fun _ => 0%nat |} in
  let w := world_of [job 0 (Some 45%Q) None] in
  select_answer ce = SelectError "connection refused" /\
  processVideos ce w
    = {| outcome := Normal tt; after := w;
         events := [EvSelect;
                    EvConsoleError "Database query error: connection refused"] |}.
Proof.
  cbv zeta. split; [reflexivity|].
  pose proof (discovery_selects_oldest_eligible
                {| select_answer := SelectError "connection refused";
                   job_env := fun _ => env_ok;
                   finish_time := fun _ => 0%nat |}
                (world_of [job 0 (Some 45%Q) None])) as H.
  cbv zeta in H. destruct H as (_ & _ & _ & _ & _ & _ & _ & _ & Herror & _).
  exact (Herror "connection refused" eq_refl).
Defined.

(** ** The attempt counter *)

Lemma update_keeps_counter (id : string) (bound : Z) (p : patch)
    (tbl : list packing_record) :
  set_remux_attempts p = None ->
  counter_within id bound tbl ->
  counter_not_lowered tbl id p /\ counter_within id bound (update_rows id p tbl).
Proof.
  intros Hp Hwithin. split.
  - unfold counter_not_lowered, update_rows. apply Forall2_fmap_r, Forall_Forall2_diag.
    apply Forall_forall. intros row _. unfold compose. cbn beta.
    destruct (String.eqb (pr_id row) id); [|done].
    unfold attempts_of, apply_patch. simpl. by rewrite Hp.
  - intros row' Hin Hid.
    apply elem_of_update_rows in Hin as (row & Hrow & Hsame & Hpatched & Hother).
    destruct (decide (pr_id row = id)) as [Heq|Hne].
    + rewrite (Hpatched Heq). unfold attempts_of, apply_patch. simpl. rewrite Hp.
      by apply Hwithin.
    + rewrite (Hother Hne). apply Hwithin; [done | congruence].
Qed.

Lemma update_sets_counter (id : string) (bound : Z) (p : patch)
    (tbl : list packing_record) :
  set_remux_attempts p = Some bound ->
  counter_within id bound tbl ->
  counter_not_lowered tbl id p /\ counter_within id bound (update_rows id p tbl).
Proof.
  intros Hp Hwithin. split.
  - unfold counter_not_lowered, update_rows. apply Forall2_fmap_r, Forall_Forall2_diag.
    apply Forall_forall. intros row Hrow. unfold compose. cbn beta.
    destruct (String.eqb_spec (pr_id row) id) as [Heq|Hne]; [|done].
    unfold attempts_of at 2. unfold apply_patch. simpl. rewrite Hp. simpl.
    by apply Hwithin.
  - intros row' Hin Hid.
    apply elem_of_update_rows in Hin as (row & Hrow & Hsame & Hpatched & Hother).
    destruct (decide (pr_id row = id)) as [Heq|Hne].
    + rewrite (Hpatched Heq). unfold attempts_of, apply_patch. simpl. by rewrite Hp.
    + rewrite (Hother Hne). apply Hwithin; [done | congruence].
Qed.

Ltac unfold_patches :=
  unfold skip_known_patch, claim_patch, skip_probed_patch, completed_patch,
    failed_patch.

(** Every update of a run is aimed at the job's own [id] and either leaves
    the counter alone, or is the claim, or is a [failed] write at the cap. *)
Lemma processVideo_updates (e : env) (video : packing_record) :
  emits (fun ev =>
           match ev with
           | EvUpdate id p _ =>
               id = pr_id video /\
               (set_remux_attempts p = None \/
                set_remux_attempts p = Some (attempt_number video) \/
                (set_remux_attempts p = Some 3 /\ 3 <= attempt_number video)) /\
               (set_remux_status p = Some Failed -> set_remux_attempts p = Some 3) /\
               exists props,
                 set_metadata p = Some (spread (metadata_or_empty video) props)
           | _ => True
           end)
    (processVideo e video).
Proof.
  unfold processVideo, attempt, on_error, remux_and_store, checkR2File,
    downloadFromR2, uploadToR2, getVideoDuration, executeFFmpeg, markAsFailed.
  walk; try done; leb_facts; unfold_patches; simpl;
    (split; [done|]); (split; [auto|]); (split; [done|]); by eexists.
Qed.

(** C3, as the code has it. For a job taken from the discovery result
    (stored counter below 3, and not above the snapshot's), no update of the
    run lowers [remux_attempts]. Unless the job is skipped for its known
    duration, the first effect of the run is the claim, which writes
    [processing] with the counter raised by one and the attempt timestamp
    merged, and so precedes every object-store request. Every [failed] write
    sets the counter to 3. A row whose counter has reached 3 is never
    returned by the discovery query, so no further attempt is launched for
    it. *)
Theorem attempts_only_grow (e : env) (video : packing_record) (w : world) :
  attempts_of video < 3 ->
  counter_within (pr_id video) (attempts_of video) (db w) ->
  let r := processVideo e video w in
  each_write counter_not_lowered (db w) (events r) /\
  db (after r) = replay (events r) (db w) /\
  (known_too_short video = false ->
   exists applied rest,
     events r = EvUpdate (pr_id video) (claim_patch e video) applied :: rest /\
     set_remux_status (claim_patch e video) = Some Processing /\
     set_remux_attempts (claim_patch e video) = Some (attempts_of video + 1) /\
     set_metadata (claim_patch e video) ≫= (fun m => m !! "last_remux_attempt")
       = Some (JStr (at_claimed e))) /\
  (forall id p applied, EvUpdate id p applied ∈ events r ->
     set_remux_status p = Some Failed -> set_remux_attempts p = Some 3) /\
  (forall tbl row, row ∈ run_select discovery_query tbl ->
     remux_attempts row <> Some 3).
Proof.
  intros Hbelow Hstored r. subst r.
  pose proof (processVideo_updates e video w) as Hupdates.
  split; [|split; [|split; [|split]]].
  - apply each_write_intro with (Inv := counter_within (pr_id video) (attempt_number video)).
    + intros row Hin Hid. specialize (Hstored row Hin Hid).
      unfold attempt_number. fold (attempts_of video). lia.
    + eapply Forall_impl; [exact Hupdates|].
      intros [] Hev; try done.
      destruct applied; [|done].
      destruct Hev as (-> & Hcounter & _). intros tbl Hwithin.
      destruct Hcounter as [Hnone|[Hclaim|[Hcap Hn]]].
      * by apply update_keeps_counter.
      * by apply update_sets_counter.
      * apply update_sets_counter; [|done].
        rewrite Hcap. f_equal. unfold attempt_number in *.
        fold (attempts_of video) in *. lia.
  - apply processVideo_logged.
  - intros Hknown. unfold processVideo. rewrite Hknown.
    unfold mbind, M_bind, bind, db_update.
    destruct (db_claim e);
      try (destruct (try_finally _ _ _) as [c w' evs]);
      (eexists; eexists; split; [reflexivity|]);
      (split; [done|]); (split; [done|]);
      unfold claim_patch; simpl; by spread_lookup.
  - intros id p applied Hin. rewrite Forall_forall in Hupdates.
    by destruct (Hupdates _ Hin) as (_ & _ & Hfailed & _).
  - intros tbl row Hin Hcap.
    apply elem_of_run_select in Hin as (_ & _ & _ & (n & Hn & Hlt) & _).
    rewrite Hcap in Hn. injection Hn as <-. lia.
Qed.

Lemma attempts_only_grow_witness :
  let video := job 2 (Some 45%Q) None in
  let w := world_of [video] in
  attempts_of video < 3 /\
  counter_within (pr_id video) (attempts_of video) (db w) /\
  each_write counter_not_lowered (db w) (events (processVideo env_ok video w)).
Proof.
  cbv zeta.
  assert (counter_within "A" 2 [job 2 (Some 45%Q) None]) as Hstored.
  { intros row Hin _. apply list_elem_of_singleton in Hin as ->. by vm_compute. }
  split; [by vm_compute|]. split; [exact Hstored|].
  apply (attempts_only_grow env_ok (job 2 (Some 45%Q) None)
           (world_of [job 2 (Some 45%Q) None])); [by vm_compute | exact Hstored].
Defined.

(** The claim's last clause fails on a third attempt that succeeds: the claim
    step raises the stored counter to 3, and the same run then moves the job
    to [completed]. *)
Lemma third_attempt_can_complete :
  let video := job 2 (Some 45%Q) None in
  let w := world_of [video] in
  let r := processVideo env_ok video w in
  ~ each_write only_failed_once_capped (db w) (events r) /\
  (remux_status <$> db (after r)) = [Some Completed] /\
  (remux_attempts <$> db (after r)) = [Some 3].
Proof.
  cbv zeta. split; [|split; reflexivity].
  intros Hall. vm_compute in Hall.
  destruct Hall as (_ & Hcompleted & _).
  discriminate Hcompleted.
  eexists. split; [left|]. split; reflexivity.
Qed.

(** ** The metadata bag *)

(** Shows that the update at hand is of kind [u]. *)
Ltac pin_kind u :=
  exists u; eexists; (split; [reflexivity|]); (split; [reflexivity|]);
  (split; [reflexivity|]); cbn [holds_own_values];
  repeat first [ split | eexists ]; by spread_lookup.

(** Every update of a run is of one of the five kinds: it sets the status of
    its kind and writes, as metadata, the snapshot with the properties of its
    kind spread on top. *)
Lemma processVideo_metadata_writes (e : env) (video : packing_record) :
  emits (fun ev =>
           match ev with
           | EvUpdate id p _ =>
               exists u props,
                 set_remux_status p = Some (status_written u) /\
                 set_metadata p = Some (spread (metadata_or_empty video) props) /\
                 props.*1 = keys_written u /\
                 holds_own_values e u (spread (metadata_or_empty video) props)
           | _ => True
           end)
    (processVideo e video).
Proof.
  unfold processVideo, attempt, on_error, remux_and_store, checkR2File,
    downloadFromR2, uploadToR2, getVideoDuration, executeFFmpeg, markAsFailed.
  walk; try done; unfold_patches; cbn [set_remux_status set_metadata].
  all: first
    [ pin_kind ClaimWrite | pin_kind SkipKnownWrite | pin_kind SkipProbedWrite
    | pin_kind CompletedWrite | pin_kind FailedWrite ].
Qed.

(** C4, as the code has it. Every update of a run is aimed at the job's own
    row and merges its own keys into the metadata the job was discovered
    with: the keys of its kind hold the values it computes, and a key it does
    not set, stored with the value the job was discovered with, is still
    stored with that value after the update. *)
Theorem updates_merge_the_snapshot (e : env) (video : packing_record) (w : world)
    (id : string) (p : patch) (applied : bool) :
  EvUpdate id p applied ∈ events (processVideo e video w) ->
  let snapshot := metadata_or_empty video in
  id = pr_id video /\
  exists u m,
    set_remux_status p = Some (status_written u) /\
    set_metadata p = Some m /\
    holds_own_values e u m /\
    (forall row k v,
       k ∉ keys_written u ->
       snapshot !! k = Some v ->
       meta_lookup row k = Some v ->
       meta_lookup (apply_patch p row) k = Some v).
Proof.
  intros Hin snapshot.
  pose proof (processVideo_updates e video w) as Hupdates.
  pose proof (processVideo_metadata_writes e video w) as Hwrites.
  rewrite Forall_forall in Hupdates, Hwrites.
  destruct (Hupdates _ Hin) as (-> & _).
  destruct (Hwrites _ Hin) as (u & props & Hstatus & Hmeta & Hkeys & Hown).
  split; [done|]. exists u, (spread snapshot props).
  split; [done|]. split; [done|]. split; [done|].
  intros row k v Hk Hsnapshot _.
  unfold meta_lookup, apply_patch. cbn [metadata]. rewrite Hmeta. simpl.
  rewrite spread_lookup_other by (by rewrite Hkeys). done.
Qed.

Lemma updates_merge_the_snapshot_witness :
  let bag : gmap string jval := {[ "uploaded_from" := JStr "worker_app" ]} in
  let video := job 0 (Some 45%Q) (Some bag) in
  let r := processVideo env_ok video (world_of [video]) in
  let p := completed_patch env_ok video 1000 1100 (JFin 45) in
  EvUpdate "A" p true ∈ events r /\
  meta_lookup video "uploaded_from" = Some (JStr "worker_app") /\
  meta_lookup (apply_patch p video) "uploaded_from" = Some (JStr "worker_app") /\
  is_Some (meta_lookup (apply_patch p video) "size_saved").
Proof.
  cbv zeta.
  set (video := job 0 (Some 45%Q) (Some {[ "uploaded_from" := JStr "worker_app" ]})).
  assert (EvUpdate "A" (completed_patch env_ok video 1000 1100 (JFin 45)) true
          ∈ events (processVideo env_ok video (world_of [video]))) as Hin
    by (apply (list_elem_of_lookup_2 _ 8); reflexivity).
  split; [exact Hin|]. split; [reflexivity|].
  destruct (updates_merge_the_snapshot _ _ _ _ _ _ Hin)
    as (_ & u & m & Hstatus & Hmeta & Hown & Hkept).
  destruct u; try discriminate Hstatus.
  split.
  - apply Hkept; [|reflexivity..].
    cbn [keys_written]. rewrite !not_elem_of_cons. repeat split; try done.
    apply not_elem_of_nil.
  - destruct Hown as (inputSize & outputSize & actualDuration & _ & _ & Hsaved & _).
    unfold meta_lookup, apply_patch. cbn [metadata]. rewrite Hmeta. simpl.
    by rewrite Hsaved.
Defined.

(** The claim fails where an update sets a key that is already stored: the
    value of that key is replaced, as the spread has it. Here the job was
    discovered with the timestamp of an earlier attempt, and the claim step
    writes the new one over it. *)
Lemma claim_replaces_the_stored_timestamp :
  let bag : gmap string jval :=
    {[ "last_remux_attempt" := JStr "2023-12-31T23:59:00.000Z" ]} in
  let video := job 1 (Some 45%Q) (Some bag) in
  let w := world_of [video] in
  let r := processVideo env_ok video w in
  ~ each_write metadata_preserved (db w) (events r) /\
  meta_lookup video "last_remux_attempt" = Some (JStr "2023-12-31T23:59:00.000Z") /\
  (fun row => meta_lookup row "last_remux_attempt")
    <$> db (after (db_update WApplied "A" (claim_patch env_ok video) w))
    = [Some (JStr "2024-01-01T00:00:00.000Z")].
Proof.
  cbv zeta. split; [|split; reflexivity].
  intros Hall. cbn in Hall. destruct Hall as (Hclaim & _).
  specialize (Hclaim _ (list_elem_of_here _ _) eq_refl
                "last_remux_attempt" (JStr "2023-12-31T23:59:00.000Z") eq_refl).
  vm_compute in Hclaim. discriminate.
Qed.

(** ** Size accounting *)

(** C7. When the remux ran and resolved, and the output file is larger than
    the input, the run still uploads the output to the key the job started
    with and still issues the [completed] update, with [remuxed_at],
    [remuxed_size] and [size_saved = inputSize - outputSize], a negative
    number; once the upload has succeeded and that update is applied, the rows
    of the job are [completed] and hold these values. *)
Theorem larger_output_is_still_stored (e : env) (video : packing_record) (w : world)
    (inputSize outputSize : Z) :
  let r := processVideo e video w in
  existsb is_remux (events r) = true ->
  ffmpeg_callback (ffmpeg e) = Normal tt ->
  stat_input e = Normal inputSize ->
  stat_output e = Normal outputSize ->
  inputSize < outputSize ->
  read_output e = Normal tt ->
  put_object e = Normal tt ->
  db_completed e = WApplied ->
  let savedBytes := inputSize - outputSize in
  savedBytes < 0 /\
  EvPut (tempOutput e video) (video_url video) ∈ events r /\
  (exists actualDuration,
     EvUpdate (pr_id video)
       (completed_patch e video inputSize outputSize actualDuration) true ∈ events r) /\
  existsb (writes_status Skipped) (events r) = false /\
  existsb (writes_status Failed) (events r) = false /\
  outcome r = Normal tt /\
  forall row, row ∈ db (after r) -> pr_id row = pr_id video ->
    remux_status row = Some Completed /\
    remuxed_at row = Some (at_remuxed e) /\
    remuxed_size row = Some outputSize /\
    meta_lookup row "size_saved" = Some (JInt savedBytes).
Proof.
  intros r Hran Hresolved Hin Hout Hlarger Hread Hput Hdone savedBytes.
  split; [subst savedBytes; lia|].
  subst r savedBytes. revert Hran. unfold_processor. explore.
  all: cbn [existsb is_remux orb]; try discriminate; intros _.
  all: (split; [find_event|]).
  all: (split; [eexists; find_event|]).
  all: cbn [existsb writes_status orb]; unfold_patches; cbn [set_remux_status].
  all: rewrite ?bool_decide_eq_false_2 by done.
  all: (split; [done|]); (split; [done|]); (split; [done|]).
  all: intros row' Hrow Hid; patched_rows.
  all: unfold meta_lookup; simpl.
  all: (split; [done|]); (split; [done|]); (split; [done|]).
  all: by spread_lookup.
Qed.

Lemma larger_output_is_still_stored_witness :
  let video := job 0 (Some 45%Q) None in
  let w := world_of [video] in
  let r := processVideo env_ok video w in
  existsb is_remux (events r) = true /\
  ffmpeg_callback (ffmpeg env_ok) = Normal tt /\
  stat_input env_ok = Normal 1000 /\
  stat_output env_ok = Normal 1100 /\
  1000 < 1100 /\
  forall row, row ∈ db (after r) -> pr_id row = pr_id video ->
    remux_status row = Some Completed /\
    remuxed_at row = Some (at_remuxed env_ok) /\
    remuxed_size row = Some 1100 /\
    meta_lookup row "size_saved" = Some (JInt (1000 - 1100)).
Proof.
  cbv zeta. split; [reflexivity|]. split; [reflexivity|]. split; [reflexivity|].
  split; [reflexivity|]. split; [reflexivity|].
  apply (larger_output_is_still_stored env_ok (job 0 (Some 45%Q) None)
           (world_of [job 0 (Some 45%Q) None]) 1000 1100);
    reflexivity.
Defined.

(** ** The duration probe *)

(** C9. [getVideoDuration] never throws and never answers NaN: it completes
    with a number, which is 0 when the inspection command fails, and leaves
    the world as it is. In [processVideo], a probe that fails is therefore
    read as a duration of 0: the run issues the [skipped] update with
    [detected_duration = 0], starts no remux, and ends normally once that
    update is answered without throwing. *)
Theorem probe_failure_reads_as_zero (e : env) (video : packing_record) (w : world)
    (filePath : string) :
  let probe := getVideoDuration e filePath w in
  (exists d, outcome probe = Normal d /\ d <> JNaN) /\
  after probe = w /\
  (forall msg, ffprobe e = Thrown msg -> outcome probe = Normal (JFin 0)) /\
  (forall msg,
     ffprobe e = Thrown msg ->
     let r := processVideo e video w in
     existsb is_probe (events r) = true ->
     (exists applied,
        EvUpdate (pr_id video) (skip_probed_patch e video (JFin 0)) applied ∈ events r) /\
     set_remux_status (skip_probed_patch e video (JFin 0)) = Some Skipped /\
     set_metadata (skip_probed_patch e video (JFin 0))
       ≫= (fun m => m !! "detected_duration") = Some (JNum (JFin 0)) /\
     existsb is_remux (events r) = false /\
     ((forall reason, db_skip_probed e <> WThrow reason) -> outcome r = Normal tt)).
Proof.
  cbv zeta. split; [|split; [|split]].
  - unfold getVideoDuration, mbind, M_bind, bind, try_catch, await, emit, ret.
    destruct (ffprobe e) as [parsed|msg]; simpl.
    + exists (num_or_0 parsed). split; [done|].
      unfold num_or_0. destruct (truthy_num parsed) eqn:Htruthy; [|done].
      by destruct parsed.
    + by exists (JFin 0).
  - unfold getVideoDuration, mbind, M_bind, bind, try_catch, await, emit, ret.
    by destruct (ffprobe e).
  - intros msg Hfail.
    unfold getVideoDuration, mbind, M_bind, bind, try_catch, await, emit, ret.
    by rewrite Hfail.
  - intros msg Hfail. unfold_processor. explore.
    all: cbn [existsb is_probe is_remux orb]; try discriminate; intros _.
    all: (split; [eexists; find_event|]).
    all: (split; [done|]).
    all: (split; [unfold skip_probed_patch; simpl; by spread_lookup|]).
    all: (split; [done|]).
    all: intros Hquiet; try done.
    all: by edestruct Hquiet.
Qed.

Lemma probe_failure_reads_as_zero_witness :
  let video := job 0 (Some 0%Q) None in
  let e := with_ffprobe (Thrown "ffprobe: not found") env_ok in
  let r := processVideo e video (world_of [video]) in
  ffprobe e = Thrown "ffprobe: not found" /\
  existsb is_probe (events r) = true /\
  existsb is_remux (events r) = false /\
  outcome r = Normal tt.
Proof.
  cbv zeta. split; [reflexivity|]. split; [reflexivity|].
  destruct (probe_failure_reads_as_zero
              (with_ffprobe (Thrown "ffprobe: not found") env_ok)
              (job 0 (Some 0%Q) None) (world_of [job 0 (Some 0%Q) None]) "")
    as (_ & _ & _ & Hrouted).
  destruct (Hrouted "ffprobe: not found" eq_refl eq_refl) as (_ & _ & _ & Hnone & Hends).
  split; [exact Hnone|]. apply Hends. intros reason. discriminate.
Defined.

(** ** The existence check *)

(** [checkR2File] never throws, and answers [true] exactly when the HEAD
    request succeeds with a content length above 0. An object of zero bytes
    is thus reported absent: the run is the very run a storage error would
    give, it downloads and remuxes nothing, and -- the claim write being
    applied -- it leaves the job at [processing] below the cap and issues the
    [failed] update, reason ['File not found after 3 attempts'], at the
    cap. *)
Theorem existence_needs_positive_length (e : env) (video : packing_record)
    (w : world) (key : string) :
  let check := checkR2File e key w in
  (outcome check = Normal true <-> object_found e) /\
  (outcome check = Normal false <-> ~ object_found e) /\
  after check = w /\
  events check = [EvHead key] /\
  (head e = HeadOk (Some 0) ->
   let r := processVideo e video w in
   (forall msg, r = processVideo (with_head (HeadThrow msg) e) video w) /\
   existsb is_download_or_remux (events r) = false /\
   existsb (writes_status Completed) (events r) = false /\
   (known_too_short video = false -> db_claim e = WApplied ->
    (attempt_number video < 3 ->
     forall row, row ∈ db (after r) -> pr_id row = pr_id video ->
       remux_status row = Some Processing /\
       remux_attempts row = Some (attempt_number video)) /\
    (3 <= attempt_number video ->
     (exists applied,
        EvUpdate (pr_id video)
          (failed_patch (at_failed e) (metadata_or_empty video)
             "File not found after 3 attempts") applied ∈ events r) /\
     (db_failed_missing e = WApplied ->
      forall row, row ∈ db (after r) -> pr_id row = pr_id video ->
        remux_status row = Some Failed /\ remux_attempts row = Some 3)))).
Proof.
  cbv zeta.
  assert (checkR2File e key w
          = {| outcome := Normal match head e with
                                 | HeadOk len => content_length_positive len
                                 | HeadThrow _ => false
                                 end;
               after := w; events := [EvHead key] |}) as Hcheck.
  { unfold checkR2File, mbind, M_bind, bind, try_catch, await, ret.
    by destruct (head e). }
  rewrite Hcheck. cbn [outcome after events].
  assert (match head e with
          | HeadOk len => content_length_positive len
          | HeadThrow _ => false
          end = true <-> object_found e) as Hfound.
  { unfold object_found. destruct (head e) as [[n|]|msg]; simpl.
    - rewrite Z.ltb_lt. split; [by exists n | by intros (n' & [= <-] & Hn)].
    - split; [done | by intros (n & Hn & _)].
    - split; [done | by intros (n & Hn & _)]. }
  split; [|split; [|split; [done|split; [done|]]]].
  - rewrite <- Hfound. split; [by intros [= ->] | by intros ->].
  - rewrite <- Hfound. split.
    + intros [= ->]. done.
    + intros Hnot. f_equal. by apply not_true_is_false.
  - intros Hempty. split; [|split; [|split]].
    + intros msg. unfold_processor. cbn [head with_head db_claim db_skip_known
        db_failed_missing db_failed_caught at_failed tempDir].
      rewrite Hempty. reflexivity.
    + unfold_processor. explore. all: done.
    + unfold_processor. explore.
      all: cbn [existsb writes_status orb]; unfold_patches; cbn [set_remux_status].
      all: by rewrite ?bool_decide_eq_false_2 by done.
    + intros Hknown Hclaim. unfold_processor. explore.
      all: split; intros Hn; leb_facts; try lia.
      all: leaf.
Qed.

Lemma existence_needs_positive_length_witness :
  let video := job 2 (Some 45%Q) None in
  let e := with_head (HeadOk (Some 0)) env_ok in
  let r := processVideo e video (world_of [video]) in
  head e = HeadOk (Some 0) /\
  known_too_short video = false /\
  db_claim e = WApplied /\
  3 <= attempt_number video /\
  db_failed_missing e = WApplied /\
  existsb is_download_or_remux (events r) = false /\
  forall row, row ∈ db (after r) -> pr_id row = pr_id video ->
    remux_status row = Some Failed /\ remux_attempts row = Some 3.
Proof.
  cbv zeta. split; [reflexivity|]. split; [reflexivity|]. split; [reflexivity|].
  split; [by vm_compute|]. split; [reflexivity|].
  destruct (existence_needs_positive_length (with_head (HeadOk (Some 0)) env_ok)
              (job 2 (Some 45%Q) None) (world_of [job 2 (Some 45%Q) None]) "")
    as (_ & _ & _ & _ & Hempty).
  destruct (Hempty eq_refl) as (_ & Hnone & _ & Hpolicy).
  split; [exact Hnone|].
  destruct (Hpolicy eq_refl eq_refl) as [_ Hcap].
  destruct Hcap as [_ Hrows]; [by vm_compute|].
  exact (Hrows eq_refl).
Defined.

(** ** The batch dispatcher *)

Lemma schedule_app (evs1 evs2 : list event) :
  schedule (evs1 ++ evs2) = schedule evs1 ++ schedule evs2.
Proof. apply omap_app. Qed.

Lemma schedule_quiet (evs : list event) : Forall is_quiet evs -> schedule evs = [].
Proof.
  induction 1 as [|ev evs Hev _ IH]; [done|].
  unfold schedule in *. simpl. unfold is_quiet in Hev. by rewrite Hev.
Qed.

Lemma in_flight_after_app (current : nat) (s1 s2 : list mark) :
  in_flight_after current (s1 ++ s2)
  = in_flight_after (in_flight_after current s1) s2.
Proof.
  revert current. induction s1 as [|[id|id] s1 IH]; intros current; simpl; auto.
Qed.

Lemma peak_in_flight_app (current : nat) (s1 s2 : list mark) :
  peak_in_flight current (s1 ++ s2)
  = Nat.max (peak_in_flight current s1)
      (peak_in_flight (in_flight_after current s1) s2).
Proof.
  revert current. induction s1 as [|[id|id] s1 IH]; intros current; simpl.
  - assert (current <= peak_in_flight current s2)%nat; [|lia].
    destruct s2 as [|[]]; simpl; lia.
  - rewrite IH. lia.
  - rewrite IH. lia.
Qed.

(** *** The order of settlement *)

Lemma insert_by_finish_perm (finish : packing_record -> nat) (video : packing_record)
    (l : list packing_record) :
  insert_by_finish finish video l ≡ₚ video :: l.
Proof.
  induction l as [|x l IH]; [done|]. simpl.
  destruct (finish video <=? finish x)%nat; [done|].
  by rewrite IH, Permutation_swap.
Qed.

Lemma settlement_order_perm (finish : packing_record -> nat)
    (group : list packing_record) :
  settlement_order finish group ≡ₚ group.
Proof.
  induction group as [|video group IH]; [done|].
  unfold settlement_order in *. cbn [foldr].
  by rewrite insert_by_finish_perm, IH.
Qed.

Lemma insert_by_finish_sorted (finish : packing_record -> nat) (video : packing_record)
    (l : list packing_record) :
  StronglySorted (fun a b => (finish a <= finish b)%nat) l ->
  StronglySorted (fun a b => (finish a <= finish b)%nat) (insert_by_finish finish video l).
Proof.
  induction 1 as [|x l Hl IH Hx]; simpl; [by repeat constructor|].
  destruct (Nat.leb_spec (finish video) (finish x)) as [Hle|Hgt].
  - constructor; [by constructor|]. constructor; [done|].
    eapply Forall_impl; [exact Hx|]. intros y Hy. simpl in Hy. lia.
  - constructor; [done|]. rewrite insert_by_finish_perm.
    constructor; [lia | done].
Qed.

Lemma settlement_order_sorted (finish : packing_record -> nat)
    (group : list packing_record) :
  StronglySorted (fun a b => (finish a <= finish b)%nat) (settlement_order finish group).
Proof.
  induction group as [|video group IH]; [constructor|].
  unfold settlement_order in *. cbn [foldr]. by apply insert_by_finish_sorted.
Qed.

Lemma StronglySorted_among {A} (R R' : A -> A -> Prop) (l : list A) :
  (forall a b, a ∈ l -> b ∈ l -> R a b -> R' a b) ->
  StronglySorted R l -> StronglySorted R' l.
Proof.
  intros Himpl Hsorted. induction Hsorted as [|x l Hl IH Hx]; [constructor|].
  constructor.
  - apply IH. intros a b Ha Hb. apply Himpl; by apply list_elem_of_further.
  - rewrite Forall_forall in *. intros y Hy.
    apply Himpl; [apply list_elem_of_here | by apply list_elem_of_further | by apply Hx].
Qed.

Lemma position_further (id x : string) (ids : list string) :
  x <> id -> position id (x :: ids) = S (position id ids).
Proof. intros Hne. simpl. by destruct (String.eqb_spec x id). Qed.

Lemma position_inj (id id' : string) (ids : list string) :
  id ∈ ids -> id' ∈ ids -> position id ids = position id' ids -> id = id'.
Proof.
  induction ids as [|x ids IH]; intros Hin Hin' Heq;
    [by apply elem_of_nil in Hin|].
  simpl in Heq.
  destruct (String.eqb_spec x id) as [<-|Hne], (String.eqb_spec x id') as [<-|Hne'];
    try done.
  apply elem_of_cons in Hin as [?|Hin]; [congruence|].
  apply elem_of_cons in Hin' as [?|Hin']; [congruence|].
  apply IH; [done | done | congruence].
Qed.

Lemma listed_in_place (l : list packing_record) :
  NoDup (pr_id <$> l) ->
  StronglySorted
    (fun a b => (position (pr_id a) (pr_id <$> l) <= position (pr_id b) (pr_id <$> l))%nat)
    l.
Proof.
  induction l as [|x l IH]; intros Hnodup; [constructor|].
  rewrite fmap_cons in *. apply NoDup_cons in Hnodup as [Hx Hnodup].
  constructor.
  - eapply StronglySorted_among; [|exact (IH Hnodup)].
    intros a b Ha Hb Hle. cbv beta in *.
    assert (forall y, y ∈ l -> pr_id x <> pr_id y) as Hfresh.
    { intros y Hy Heq. apply Hx. rewrite Heq. by apply list_elem_of_fmap_2. }
    rewrite !position_further by auto. apply le_n_S. exact Hle.
  - apply Forall_forall. intros y _. simpl. rewrite String.eqb_refl. lia.
Qed.

Lemma same_id_same_job (l : list packing_record) (a b : packing_record) :
  NoDup (pr_id <$> l) -> a ∈ l -> b ∈ l -> pr_id a = pr_id b -> a = b.
Proof.
  induction l as [|x l IH]; intros Hnodup Ha Hb Heq; [by apply elem_of_nil in Ha|].
  rewrite fmap_cons in Hnodup. apply NoDup_cons in Hnodup as [Hx Hnodup].
  apply elem_of_cons in Ha as [->|Ha], Hb as [->|Hb]; [done| | |by apply IH].
  - destruct Hx. rewrite Heq. by apply list_elem_of_fmap_2.
  - destruct Hx. rewrite <- Heq. by apply list_elem_of_fmap_2.
Qed.

(** No order of settlement is left out: the jobs of a group, whose ids are
    distinct, settle in any given order under the finishing times that follow
    that order. *)
Lemma every_settlement_order_arises (group order : list packing_record) :
  NoDup (pr_id <$> group) ->
  order ≡ₚ group ->
  settlement_order (fun video => position (pr_id video) (pr_id <$> order)) group
  = order.
Proof.
  intros Hnodup Hperm.
  set (finish := fun video => position (pr_id video) (pr_id <$> order)).
  apply (StronglySorted_unique_strong (fun a b => (finish a <= finish b)%nat)).
  - intros x1 x2 Hx1 Hx2 Hle Hge.
    rewrite settlement_order_perm in Hx1. rewrite Hperm in Hx2.
    apply (same_id_same_job group); [done..|].
    apply (position_inj _ _ (pr_id <$> order)).
    + apply list_elem_of_fmap_2. by rewrite Hperm.
    + apply list_elem_of_fmap_2. by rewrite Hperm.
    + unfold finish in *. lia.
  - apply settlement_order_sorted.
  - apply listed_in_place. by rewrite Hperm.
  - by rewrite settlement_order_perm.
Qed.

(** *** Tasks in flight *)

Lemma launches_in_flight (current : nat) (group : list packing_record) :
  in_flight_after current ((fun video => Launched (pr_id video)) <$> group) = (current + length group)%nat /\
  peak_in_flight current ((fun video => Launched (pr_id video)) <$> group) = (current + length group)%nat.
Proof.
  revert current. induction group as [|video group IH]; intros current; csimpl.
  - split; lia.
  - destruct (IH (S current)) as [-> ->]. split; lia.
Qed.

Lemma settlements_in_flight (current : nat) (group : list packing_record) :
  in_flight_after current ((fun video => Settled (pr_id video)) <$> group) = (current - length group)%nat /\
  peak_in_flight current ((fun video => Settled (pr_id video)) <$> group) = current.
Proof.
  revert current. induction group as [|video group IH]; intros current; csimpl.
  - split; lia.
  - destruct (IH (pred current)) as [-> ->]. split; lia.
Qed.

Lemma group_in_flight (finish : packing_record -> nat) (group : list packing_record) :
  in_flight_after 0 (group_schedule finish group) = 0%nat /\
  peak_in_flight 0 (group_schedule finish group) = length group.
Proof.
  unfold group_schedule. rewrite in_flight_after_app, peak_in_flight_app.
  destruct (launches_in_flight 0 group) as [-> ->].
  destruct (settlements_in_flight (0 + length group) (settlement_order finish group))
    as [-> ->].
  rewrite (Permutation_length (settlement_order_perm finish group)).
  split; lia.
Qed.

Lemma groups_in_flight (finish : packing_record -> nat)
    (groups : list (list packing_record)) :
  Forall (fun group => (1 <= length group <= 3)%nat) groups ->
  in_flight_after 0 (concat (group_schedule finish <$> groups)) = 0%nat /\
  (peak_in_flight 0 (concat (group_schedule finish <$> groups)) <= 3)%nat.
Proof.
  induction 1 as [|group groups Hgroup _ [IHafter IHpeak]]; csimpl;
    [split; simpl; lia|].
  rewrite in_flight_after_app, peak_in_flight_app.
  destruct (group_in_flight finish group) as [-> ->]. split; [done | lia].
Qed.

(** *** The rounds of the loop *)

Section Dispatcher.
Context (finish : packing_record -> nat) (job : packing_record -> M unit).
Hypothesis job_quiet : forall video, emits is_quiet (job video).

Lemma settle_all_run (group : list packing_record) (w : world) :
  schedule (events (settle_all job group w)) = (fun video => Settled (pr_id video)) <$> group /\
  exists outcomes, outcome (settle_all job group w) = Normal outcomes /\
                   length outcomes = length group.
Proof.
  revert w. induction group as [|video group IH]; intros w.
  - split; [done | by exists []].
  - cbn [settle_all]. unfold mbind, M_bind, bind, settle, ret.
    pose proof (job_quiet video w) as Hquiet.
    destruct (job video w) as [c w1 evs].
    destruct (IH w1) as (Hschedule & outcomes & Houtcome & Hlength).
    destruct (settle_all job group w1) as [cs w2 evs2].
    cbn [outcome events] in *. subst cs.
    split; [|exists (c :: outcomes); split; [done | simpl; lia]].
    cbn [events].
    rewrite app_nil_r, !schedule_app, Hschedule, (schedule_quiet evs) by done.
    done.
Qed.

Lemma launch_all_run (group : list packing_record) (w : world) :
  foldr (fun video rest => emit (EvLaunch (pr_id video));; rest) (ret tt) group w
  = {| outcome := Normal tt; after := w;
       events := (fun video => EvLaunch (pr_id video)) <$> group |}.
Proof.
  induction group as [|video group IH]; [done|].
  cbn [foldr]. unfold mbind, M_bind, bind, emit in *. by rewrite IH.
Qed.

(** A round, once its tasks are known to settle. *)
Lemma allSettled_unfold (group : list packing_record) (w : world) :
  allSettled finish job group w
  = {| outcome := Normal tt;
       after := after (settle_all job (settlement_order finish group) w);
       events := ((fun video => EvLaunch (pr_id video)) <$> group)
                 ++ events (settle_all job (settlement_order finish group) w) |}.
Proof.
  unfold allSettled, mbind, M_bind, bind. rewrite launch_all_run.
  destruct (settle_all_run (settlement_order finish group) w)
    as (_ & outcomes & Houtcome & _).
  destruct (settle_all job (settlement_order finish group) w) as [cs w1 evs].
  cbn [outcome after events] in *. subst cs. unfold ret.
  by rewrite app_nil_r.
Qed.

Lemma schedule_launches (group : list packing_record) :
  schedule ((fun video => EvLaunch (pr_id video)) <$> group)
  = (fun video => Launched (pr_id video)) <$> group.
Proof.
  induction group as [|video group IH]; [done|].
  csimpl. unfold schedule in *. simpl. by rewrite IH.
Qed.

Lemma allSettled_run (group : list packing_record) (w : world) :
  schedule (events (allSettled finish job group w)) = group_schedule finish group /\
  outcome (allSettled finish job group w) = Normal tt.
Proof.
  rewrite allSettled_unfold. cbn [outcome events]. split; [|done].
  destruct (settle_all_run (settlement_order finish group) w) as (Hschedule & _).
  by rewrite schedule_app, Hschedule, schedule_launches.
Qed.

Lemma dispatch_from_run (videos : list packing_record) (fuel i : nat) (w : world) :
  (length videos - i <= fuel)%nat ->
  outcome (dispatch_from fuel finish job videos i w) = Normal tt /\
  exists groups,
    concat groups = drop i videos /\
    Forall (fun group => (1 <= length group <= 3)%nat) groups /\
    schedule (events (dispatch_from fuel finish job videos i w))
    = concat (group_schedule finish <$> groups).
Proof.
  revert i w. induction fuel as [|fuel IH]; intros i w Hfuel.
  - split; [done|]. exists []. rewrite drop_ge by lia. done.
  - cbn [dispatch_from].
    destruct (Nat.ltb_spec i (length videos)) as [Hlt|Hge].
    + unfold mbind, M_bind, bind.
      destruct (allSettled_run (slice i (i + batchSize) videos) w)
        as (Hschedule & Houtcome).
      destruct (allSettled finish job (slice i (i + batchSize) videos) w) as [cs w1 evs].
      cbn [outcome events] in *. subst cs.
      destruct (IH (i + batchSize)%nat w1) as (Hnormal & groups & Hconcat & Hsizes & Hrest);
        [unfold batchSize; lia|].
      destruct (dispatch_from fuel finish job videos (i + batchSize) w1) as [c w2 evs2].
      cbn [outcome events] in *. split; [done|].
      exists (slice i (i + batchSize) videos :: groups).
      assert (slice i (i + batchSize) videos = take 3 (drop i videos)) as Hslice.
      { unfold slice, batchSize. f_equal. lia. }
      split; [|split].
      * csimpl. rewrite Hconcat, Hslice. unfold batchSize.
        rewrite <- drop_drop. apply take_drop.
      * constructor; [|done]. rewrite Hslice, length_take, length_drop. lia.
      * csimpl. by rewrite schedule_app, Hschedule, Hrest.
    + split; [done|]. exists []. rewrite drop_ge by lia. done.
Qed.
End Dispatcher.

Lemma processVideo_quiet (e : env) (video : packing_record) :
  emits is_quiet (processVideo e video).
Proof.
  unfold processVideo, attempt, on_error, remux_and_store, checkR2File,
    downloadFromR2, uploadToR2, getVideoDuration, executeFFmpeg, markAsFailed.
  walk; done.
Qed.


Section Traces.
Context (finish : packing_record -> nat) (envs : packing_record -> env).
Context (w0 : world).



End Traces.

Lemma settle_all_logged (job : packing_record -> M unit) (group : list packing_record) :
  (forall video, logged (job video)) -> logged (settle_all job group).
Proof.
  intros Hjob. induction group as [|video group IH]; cbn [settle_all].
  - apply logged_ret.
  - apply logged_bind; [|intros c; apply logged_bind; [done|intros cs; apply logged_ret]].
    intros w. unfold settle. specialize (Hjob video w).
    destruct (job video w) as [c w1 evs]. cbn [events after] in *.
    by rewrite replay_app.
Qed.

Lemma dispatch_from_logged (finish : packing_record -> nat)
    (job : packing_record -> M unit) (videos : list packing_record) (fuel i : nat) :
  (forall video, logged (job video)) -> logged (dispatch_from fuel finish job videos i).
Proof.
  intros Hjob. revert i. induction fuel as [|fuel IH]; intros i; cbn [dispatch_from].
  - apply logged_ret.
  - destruct (i <? length videos)%nat; [|apply logged_ret].
    apply logged_bind; [|intros _; apply IH].
    unfold allSettled. apply logged_bind.
    + generalize (slice i (i + batchSize) videos). intros group.
      induction group as [|video group IHg]; cbn [foldr].
      * apply logged_ret.
      * apply logged_bind; [by apply logged_emit | done].
    + intros _. apply logged_bind; [by apply settle_all_logged|].
      intros _. apply logged_ret.
Qed.


(** ** Scenarios *)

(** The end-to-end scenario of the specification: one cycle completes job A
    at its first attempt and overwrites its object. *)
Example one_cycle_completes_the_job :
  let r := processVideos (cycle_of env_ok)
             (world_of [job 0 (Some 45%Q) None]) in
  outcome r = Normal tt /\
  (fun row => (remux_status row, remux_attempts row, remuxed_at row, remuxed_size row))
    <$> db (after r)
  = [(Some Completed, Some 1, Some "2024-01-01T00:00:02.000Z", Some 1100)] /\
  EvPut "/tmp/video-processor/output_A.webm" "recordings/x.webm" ∈ events r.
Proof.
  cbv zeta. split; [reflexivity|]. split; [reflexivity|].
  apply list_elem_of_In. vm_compute. tauto.
Qed.

(** The rejection of B, the first task to settle, does not keep A and C,
    launched with it, nor D, of the next group, from completing; the jobs are
    launched oldest first. *)
Example rejection_does_not_stop_siblings :
  let r := processVideos cycle_with_rejection four_jobs in
  outcome r = Normal tt /\
  omap (fun ev => match ev with
                  | EvLaunch id => Some (id, None)
                  | EvSettled id fulfilled => Some (id, Some fulfilled)
                  | _ => None
                  end) (events r)
  = [("A", None); ("B", None); ("C", None);
     ("B", Some false); ("C", Some true); ("A", Some true);
     ("D", None); ("D", Some true)] /\
  (fun row => (pr_id row, remux_status row)) <$> db (after r)
  = [("D", Some Completed); ("B", Some Pending); ("A", Some Completed);
     ("C", Some Completed)].
Proof. cbv zeta. split; [reflexivity|]. split; reflexivity. Qed.

(** A run that claims the job and then completes it writes the terminal
    metadata from the bag the job was discovered with: the [last_remux_attempt]
    key the claim step had stored is not in it. *)
Example terminal_write_starts_from_the_discovered_bag :
  let video := job 0 (Some 45%Q) None in
  let w := world_of [video] in
  let r := processVideo env_ok video w in
  (fun row => meta_lookup row "last_remux_attempt")
    <$> db (after (db_update WApplied "A" (claim_patch env_ok video) w))
  = [Some (JStr "2024-01-01T00:00:00.000Z")] /\
  (fun row => meta_lookup row "last_remux_attempt") <$> db (after r) = [None].
Proof. cbv zeta. split; reflexivity. Qed.

(** An object that stays empty, hence reported absent: the first attempt
    leaves the job at [processing], where the discovery query does not find it
    again; started anew from the stored row, the third attempt marks it
    [failed]. *)
Example empty_object_fails_at_the_third_attempt :
  let e := with_head (HeadOk (Some 0)) env_ok in
  let w0 := world_of [job 0 (Some 45%Q) None] in
  let again (w : world) :=
    match db w with
    | row :: _ => after (processVideo e row w)
    | [] => w
    end in
  let w1 := again w0 in
  let w2 := again w1 in
  let w3 := again w2 in
  (fun row => (remux_status row, remux_attempts row)) <$> db w1
    = [(Some Processing, Some 1)] /\
  run_select discovery_query (db w1) = [] /\
  (fun row => (remux_status row, remux_attempts row)) <$> db w2
    = [(Some Processing, Some 2)] /\
  (fun row => (remux_status row, remux_attempts row,
               meta_lookup row "remux_error")) <$> db w3
    = [(Some Failed, Some 3, Some (JStr "File not found after 3 attempts"))].
Proof. cbv zeta. repeat split; reflexivity. Qed.

(** The remux invocation on three runs of the tool. *)
Example broken_remux_is_rejected :
  ffmpeg_callback ffmpeg_broken
  = Thrown "FFmpeg failed: Invalid data found when processing input".
Proof. reflexivity. Qed.

Example warning_with_marker_is_tolerated :
  ffmpeg_callback
    {| error := Some {| code := CodeNumber 1; message := "Command failed" |};
       stdout := "video:812kB audio:0kB muxing overhead: 0.512%";
       stderr := "deprecated pixel format used" |}
  = Normal tt.
Proof. reflexivity. Qed.

Example long_diagnostic_is_cut :
  let long := String.concat "" (replicate 60 "0123456789") in
  match ffmpeg_callback
          {| error := Some {| code := CodeNull; message := "killed" |};
             stdout := long; stderr := "" |} with
  | Thrown text => String.length text = (15 + 500)%nat
  | Normal _ => False
  end.
Proof. vm_compute. reflexivity. Qed.

(** * Further properties of the processor *)

(** ** Scratch files *)

Lemma cleanup_run (files : list string) (w : world) :
  cleanup files w
  = {| outcome := Normal tt; after := w; events := EvUnlink <$> files |}.
Proof.
  induction files as [|file files IH]; [done|].
  unfold cleanup in *. cbn [foldr]. unfold mbind, M_bind, bind, emit in *.
  by rewrite IH.
Qed.

(** X1. Once the claim write has returned, every exit of [processVideo] --
    success, skip, absent object, caught error, even a [markAsFailed] that
    throws -- ends with the removal of the job's two scratch files. *)
Theorem scratch_files_are_removed_on_every_exit
    (e : env) (video : packing_record) (w : world) :
  known_too_short video = false ->
  write_throws (db_claim e) = false ->
  exists before,
    events (processVideo e video w)
    = before ++ [EvUnlink (tempInput e video); EvUnlink (tempOutput e video)].
Proof.
  intros Hknown Hclaim. unfold processVideo. rewrite Hknown.
  unfold mbind, M_bind, bind, try_finally, db_update.
  destruct (db_claim e); try discriminate.
  all: destruct (try_catch _ _ _) as [c w1 evs].
  all: rewrite cleanup_run.
  all: eexists (_ :: evs); reflexivity.
Qed.

Lemma scratch_files_are_removed_on_every_exit_witness :
  let video := job 2 (Some 45%Q) None in
  let e := with_head (HeadThrow "NotFound") env_ok in
  known_too_short video = false /\
  write_throws (db_claim e) = false /\
  exists before,
    events (processVideo e video (world_of [video]))
    = before ++ [EvUnlink (tempInput e video); EvUnlink (tempOutput e video)].
Proof.
  cbv zeta. split; [reflexivity|]. split; [reflexivity|].
  apply (scratch_files_are_removed_on_every_exit
           (with_head (HeadThrow "NotFound") env_ok) (job 2 (Some 45%Q) None)
           (world_of [job 2 (Some 45%Q) None])); reflexivity.
Defined.

(** ** The download *)

(** X2. [downloadFromR2] succeeds exactly when the stream succeeds, or the
    signed URL is obtained and wget or, after it, curl succeeds. When it
    fails, the error is the one of the signed URL or of curl: the errors of
    the stream and of wget are swallowed. Each fallback is tried only after
    the step before it has failed, and the world is left as it is. *)
Theorem download_falls_back (e : env) (key outputPath : string) (w : world) :
  let r := downloadFromR2 e key outputPath w in
  after r = w /\
  (outcome r = Normal tt <->
   dl_stream e = Normal tt \/
   (dl_signed_url e = Normal tt /\ (dl_wget e = Normal tt \/ dl_curl e = Normal tt))) /\
  (forall msg, outcome r = Thrown msg ->
     is_normal (dl_stream e) = false /\
     (dl_signed_url e = Thrown msg \/
      (is_normal (dl_wget e) = false /\ dl_curl e = Thrown msg))) /\
  events r
  = EvGet key outputPath ::
    (if is_normal (dl_stream e) then []
     else EvSignedUrl key ::
          (if is_normal (dl_signed_url e)
           then EvWget outputPath ::
                (if is_normal (dl_wget e) then [] else [EvCurl outputPath])
           else [])).
Proof.
  cbv zeta. unfold downloadFromR2, mbind, M_bind, bind, try_catch, await.
  destruct (dl_stream e) as [[]|m1], (dl_signed_url e) as [[]|m2],
    (dl_wget e) as [[]|m3], (dl_curl e) as [[]|m4]; cbn.
  all: repeat split; try done; try tauto; try (intros; simplify_eq; tauto).
  all: try (intros [|[? [|]]]; done).
Qed.

(** ** What a run touches *)

(** X3. Every effect of a run of [processVideo] is aimed at the job itself:
    updates go to the job's [id], every object-store request names the job's
    own key -- the upload overwrites that key with the job's output file --
    and the only files used are the job's two scratch files. *)
Theorem run_addresses_only_its_job (e : env) (video : packing_record) (w : world) :
  Forall (addresses_own e video) (events (processVideo e video w)).
Proof.
  revert w. change (emits (addresses_own e video) (processVideo e video)).
  unfold processVideo, attempt, on_error, remux_and_store, checkR2File,
    downloadFromR2, uploadToR2, getVideoDuration, executeFFmpeg, markAsFailed.
  walk; cbn; auto.
Qed.

(** Evaluates [writes_status] on explicit patches. *)
Ltac eval_status :=
  cbn [existsb writes_status orb]; unfold_patches; cbn [set_remux_status];
  repeat match goal with
         | |- context [bool_decide (?a = ?b)] =>
             first [ rewrite (bool_decide_eq_true_2 (a = b)) by done
                   | rewrite (bool_decide_eq_false_2 (a = b)) by done ]
         end;
  cbn [orb].

(** X4. The stored object is overwritten only by a remux that resolved: a run
    that uploads has found the object, has seen FFmpeg resolve, has read the
    size and the content of the output file, and issues no [skipped] write.
    It uploads exactly once. *)
Theorem upload_only_after_resolved_remux
    (e : env) (video : packing_record) (w : world) :
  let r := processVideo e video w in
  existsb is_put (events r) = true ->
  object_found e /\
  ffmpeg_callback (ffmpeg e) = Normal tt /\
  (exists outputSize, stat_output e = Normal outputSize) /\
  read_output e = Normal tt /\
  existsb (writes_status Skipped) (events r) = false /\
  length (List.filter is_put (events r)) = 1%nat.
Proof.
  cbv zeta. unfold_processor. explore.
  all: cbn [existsb is_put orb]; try discriminate; intros _.
  all: (split;
    [ unfold object_found;
      match goal with
      | H : head _ = HeadOk ?len, H' : content_length_positive ?len = true |- _ =>
          destruct len as [n|]; [|discriminate H'];
          exists n; split; [exact H | by apply Z.ltb_lt]
      end |]).
  all: repeat match goal with u : unit |- _ => destruct u end.
  all: (split; [done|]); (split; [by eexists|]); (split; [done|]).
  all: eval_status; split; reflexivity.
Qed.

Lemma upload_only_after_resolved_remux_witness :
  let video := job 0 (Some 45%Q) None in
  let r := processVideo env_ok video (world_of [video]) in
  existsb is_put (events r) = true /\
  ffmpeg_callback (ffmpeg env_ok) = Normal tt /\
  length (List.filter is_put (events r)) = 1%nat.
Proof.
  cbv zeta. split; [reflexivity|].
  destruct (upload_only_after_resolved_remux env_ok (job 0 (Some 45%Q) None)
              (world_of [job 0 (Some 45%Q) None]) eq_refl)
    as (_ & Hresolved & _ & _ & _ & Honce).
  split; [exact Hresolved | exact Honce].
Defined.

(** ** Errors and statistics *)

(** X5. [processVideo] rejects only when a job-store update itself throws at
    one of the three places outside the [try] block: the skip write of the
    pre-check, the claim write, or the [markAsFailed] of the [catch] block at
    the cap. Every other error -- storage, download, file system, FFmpeg,
    upload, and the updates inside the [try] block -- is caught. *)
Theorem only_unguarded_writes_reject
    (e : env) (video : packing_record) (w : world) (msg : string) :
  outcome (processVideo e video w) = Thrown msg ->
  (known_too_short video = true /\ db_skip_known e = WThrow msg) \/
  (known_too_short video = false /\
   (db_claim e = WThrow msg \/
    (3 <= attempt_number video /\ db_failed_caught e = WThrow msg))).
Proof.
  unfold_processor. explore.
  all: try discriminate.
  all: intros [= <-]; leb_facts; auto.
Qed.

Lemma only_unguarded_writes_reject_witness :
  let video := job 0 (Some 45%Q) None in
  let e := with_db_claim (WThrow "fetch failed") env_ok in
  outcome (processVideo e video (world_of [video])) = Thrown "fetch failed" /\
  ((known_too_short video = true /\ db_skip_known e = WThrow "fetch failed") \/
   (known_too_short video = false /\
    (db_claim e = WThrow "fetch failed" \/
     (3 <= attempt_number video /\ db_failed_caught e = WThrow "fetch failed")))).
Proof.
  cbv zeta. split; [reflexivity|].
  apply (only_unguarded_writes_reject (with_db_claim (WThrow "fetch failed") env_ok)
           (job 0 (Some 45%Q) None) (world_of [job 0 (Some 45%Q) None])).
  reflexivity.
Defined.

(** X6. What a run does to [this.stats]. [skipped] grows by one exactly when
    a skip write is issued, applied or not; [failed] grows by one exactly when
    the [catch] block runs; [processed] grows by one exactly when the
    [completed] update is issued and does not throw, and then [totalSaved]
    grows by [inputSize - outputSize]; nothing else changes. *)
Theorem stats_follow_the_run (e : env) (video : packing_record) (w : world) :
  let r := processVideo e video w in
  let counted :=
    existsb (writes_status Completed) (events r)
    && negb (write_throws (db_completed e)) in
  skipped (stats (after r))
    = skipped (stats w)
      + (if existsb (writes_status Skipped) (events r) then 1 else 0) /\
  failed (stats (after r))
    = failed (stats w) + (if existsb is_console_error (events r) then 1 else 0) /\
  processed (stats (after r)) = processed (stats w) + (if counted then 1 else 0) /\
  (counted = false -> totalSaved (stats (after r)) = totalSaved (stats w)) /\
  (counted = true ->
   exists inputSize outputSize,
     stat_input e = Normal inputSize /\ stat_output e = Normal outputSize /\
     totalSaved (stats (after r)) = totalSaved (stats w) + (inputSize - outputSize)).
Proof.
  cbv zeta. unfold_processor. explore.
  all: eval_status; cbn [existsb is_console_error orb andb negb write_throws
                         skipped failed processed totalSaved].
  all: repeat split; try lia; try discriminate; intros _; eauto.
Qed.

(** X7. An object reported absent never shows in the statistics: the run
    leaves [this.stats] as it was, below the cap and also at the cap, where
    the job is nevertheless written [failed]. *)
Theorem absent_object_is_not_counted (e : env) (video : packing_record) (w : world) :
  known_too_short video = false ->
  write_throws (db_claim e) = false ->
  write_throws (db_failed_missing e) = false ->
  (forall w', outcome (checkR2File e (video_url video) w') = Normal false) ->
  let r := processVideo e video w in
  stats (after r) = stats w /\
  outcome r = Normal tt /\
  existsb (writes_status Failed) (events r) = (3 <=? attempt_number video).
Proof.
  intros Hknown Hclaim Hmissing Habsent. cbv zeta.
  specialize (Habsent w). revert Habsent Hclaim Hmissing.
  unfold checkR2File, mbind, M_bind, bind, try_catch, await, ret. explore.
  all: intros Habsent; simplify_eq.
  all: unfold_processor; explore.
  all: cbn [write_throws]; try discriminate; intros _ _.
  all: eval_status; done.
Qed.

Lemma absent_object_is_not_counted_witness :
  let video := job 2 (Some 45%Q) None in
  let e := with_head (HeadThrow "NotFound") env_ok in
  let r := processVideo e video (world_of [video]) in
  known_too_short video = false /\
  (forall w', outcome (checkR2File e (video_url video) w') = Normal false) /\
  stats (after r) = no_stats /\
  existsb (writes_status Failed) (events r) = true.
Proof.
  cbv zeta. split; [reflexivity|]. split; [by intros w'|].
  destruct (absent_object_is_not_counted (with_head (HeadThrow "NotFound") env_ok)
              (job 2 (Some 45%Q) None) (world_of [job 2 (Some 45%Q) None])
              eq_refl eq_refl eq_refl (fun _ => eq_refl))
    as (Hstats & _ & Hfailed).
  split; [exact Hstats | exact Hfailed].
Defined.

(** ** The table after a run *)

Lemma keeps_identity_refl (row : packing_record) : keeps_identity row row.
Proof. by repeat split. Qed.

Lemma keeps_identity_trans (r1 r2 r3 : packing_record) :
  keeps_identity r1 r2 -> keeps_identity r2 r3 -> keeps_identity r1 r3.
Proof.
  unfold keeps_identity. intros (? & ? & ? & ? & ?) (? & ? & ? & ? & ?).
  repeat split; congruence.
Qed.

Lemma touches_only_refl (ids : list string) (tbl : list packing_record) :
  touches_only ids tbl tbl.
Proof.
  apply Forall_Forall2_diag, Forall_forall. intros row _.
  split; [apply keeps_identity_refl | done].
Qed.

Lemma touches_only_trans (ids : list string) (t1 t2 t3 : list packing_record) :
  touches_only ids t1 t2 -> touches_only ids t2 t3 -> touches_only ids t1 t3.
Proof.
  unfold touches_only. intros H12. revert t3.
  induction H12 as [|r1 r2 t1 t2 [Hid Hsame] _ IH]; intros t3 H23.
  - by inversion H23.
  - inversion H23 as [|? r3 ? t3' [Hid' Hsame'] Hrest]; subst.
    constructor; [|by apply IH]. split.
    + by eapply keeps_identity_trans.
    + intros Hout. rewrite <- (Hsame Hout). apply Hsame'.
      destruct Hid as [-> _]. done.
Qed.

Lemma update_rows_touches (ids : list string) (id : string) (p : patch)
    (tbl : list packing_record) :
  id ∈ ids -> touches_only ids tbl (update_rows id p tbl).
Proof.
  intros Hid. unfold touches_only, update_rows.
  apply Forall2_fmap_r, Forall_Forall2_diag, Forall_forall.
  intros row _. unfold compose. cbn beta.
  destruct (String.eqb_spec (pr_id row) id) as [Heq|Hne].
  - split; [by repeat split|]. intros Hout. by rewrite Heq in Hout.
  - split; [apply keeps_identity_refl | done].
Qed.

Lemma replay_touches (ids : list string) (evs : list event)
    (tbl : list packing_record) :
  Forall (updates_within ids) evs -> touches_only ids tbl (replay evs tbl).
Proof.
  intros Hevs. revert tbl.
  induction Hevs as [|ev evs Hev _ IH]; intros tbl; [apply touches_only_refl|].
  destruct ev; simpl; try apply IH.
  match goal with applied : bool |- _ => destruct applied end; [|apply IH].
  eapply touches_only_trans; [by apply update_rows_touches | apply IH].
Qed.

(** X8. A run of [processVideo] changes no row but the job's own, creates and
    deletes none, and on every row leaves [id], upload [status], [video_url],
    [video_duration] and [created_at] as they were: the object key of a job is
    stable. *)
Theorem run_touches_only_its_row (e : env) (video : packing_record) (w : world) :
  touches_only [pr_id video] (db w) (db (after (processVideo e video w))).
Proof.
  rewrite processVideo_logged. apply replay_touches.
  eapply Forall_impl; [apply processVideo_updates|].
  intros [] Hev; try done. destruct Hev as [-> _]. apply list_elem_of_here.
Qed.

(** X9. Once its first write is applied -- the skip write of the pre-check or
    the claim -- a job is no longer [pending] at the end of the run, whatever
    happens in between: it is [processing], [skipped], [completed] or
    [failed], so the discovery query will not return it again. *)
Theorem claimed_job_is_not_found_again (e : env) (video : packing_record) (w : world) :
  (if known_too_short video then db_skip_known e else db_claim e) = WApplied ->
  let tbl' := db (after (processVideo e video w)) in
  forall row, row ∈ tbl' -> pr_id row = pr_id video ->
    (exists st, remux_status row = Some st /\ st <> Pending) /\
    ~ eligible row /\
    row ∉ run_select discovery_query tbl'.
Proof.
  intros Hfirst tbl' row Hin Hid.
  assert (exists st, remux_status row = Some st /\ st <> Pending) as Hleft.
  { subst tbl'. revert Hfirst Hin. unfold_processor. explore.
    all: try discriminate.
    all: intros _ Hin; patched_rows; unfold_patches; simpl; by eexists. }
  split; [done|].
  assert (~ eligible row) as Hnot.
  { intros (_ & Hpending & _). destruct Hleft as (st & Hst & Hne). congruence. }
  split; [done|].
  intros Hfound. by apply elem_of_run_select in Hfound as [_ Heligible].
Qed.

Lemma claimed_job_is_not_found_again_witness :
  let video := job 0 (Some 45%Q) None in
  let e := with_head (HeadThrow "NotFound") env_ok in
  let tbl' := db (after (processVideo e video (world_of [video]))) in
  (if known_too_short video then db_skip_known e else db_claim e) = WApplied /\
  forall row, row ∈ tbl' -> pr_id row = pr_id video ->
    row ∉ run_select discovery_query tbl'.
Proof.
  cbv zeta. split; [reflexivity|]. intros row Hin Hid.
  by destruct (claimed_job_is_not_found_again (with_head (HeadThrow "NotFound") env_ok)
                 (job 0 (Some 45%Q) None) (world_of [job 0 (Some 45%Q) None])
                 eq_refl row Hin Hid) as (_ & _ & Hnot).
Defined.

(** X10. A run never reads the job store: its outcome, its effects and its
    statistics are decided by the snapshot it was handed and by the answers
    of its environment, whatever the table holds. *)
Theorem run_never_reads_the_table (e : env) (video : packing_record) (w w' : world) :
  stats w = stats w' ->
  outcome (processVideo e video w) = outcome (processVideo e video w') /\
  events (processVideo e video w) = events (processVideo e video w') /\
  stats (after (processVideo e video w)) = stats (after (processVideo e video w')).
Proof.
  destruct w as [tbl s], w' as [tbl' s']. cbn [stats]. intros <-.
  unfold_processor. explore. all: done.
Qed.

Lemma run_never_reads_the_table_witness :
  let video := job 0 (Some 45%Q) None in
  stats (world_of [video]) = stats (world_of []) /\
  events (processVideo env_ok video (world_of [video]))
  = events (processVideo env_ok video (world_of [])).
Proof.
  cbv zeta. split; [reflexivity|].
  by destruct (run_never_reads_the_table env_ok (job 0 (Some 45%Q) None)
                 (world_of [job 0 (Some 45%Q) None]) (world_of []) eq_refl)
    as (_ & Hevents & _).
Defined.

Lemma counter_not_lowered_row (tbl : list packing_record) (id : string) (p : patch)
    (row : packing_record) :
  counter_not_lowered tbl id p -> row ∈ tbl -> pr_id row = id ->
  attempts_of row <= attempts_of (apply_patch p row).
Proof.
  unfold counter_not_lowered, update_rows. intros Hall Hin Hid.
  induction tbl as [|x tbl IH]; [by apply elem_of_nil in Hin|].
  rewrite fmap_cons in Hall. apply Forall2_cons in Hall as [Hx Hrest].
  apply elem_of_cons in Hin as [->|Hin]; [|by apply IH].
  rewrite <- Hid, String.eqb_refl in Hx. done.
Qed.

(** X11. The cap is the query's, not the processor's. Handed a stored job
    whose counter is already 3 or more, [processVideo] still claims it,
    raising the counter above 3; when the object is then reported absent the
    [failed] write brings the counter back down to 3. *)
Theorem run_does_not_enforce_the_cap (e : env) (video : packing_record) (w : world) :
  known_too_short video = false ->
  3 <= attempts_of video ->
  video ∈ db w ->
  db_claim e = WApplied ->
  db_failed_missing e = WApplied ->
  (forall w', outcome (checkR2File e (video_url video) w') = Normal false) ->
  let r := processVideo e video w in
  set_remux_attempts (claim_patch e video) = Some (attempts_of video + 1) /\
  ~ each_write counter_not_lowered (db w) (events r) /\
  forall row, row ∈ db (after r) -> pr_id row = pr_id video ->
    remux_status row = Some Failed /\ remux_attempts row = Some 3.
Proof.
  intros Hknown Hcap Hstored Hclaim Hmissing Habsent. cbv zeta.
  split; [done|].
  assert ((3 <=? attempt_number video) = true) as Hn.
  { apply Z.leb_le. unfold attempt_number. fold (attempts_of video). lia. }
  specialize (Habsent w). revert Habsent.
  unfold checkR2File, mbind, M_bind, bind, try_catch, await, ret. explore.
  all: intros Habsent; simplify_eq.
  all: unfold_processor; explore.
  all: split; [|intros row Hin Hid; by patched_rows].
  all: cbn [each_write]; intros (_ & Hlowered & _).
  all: eapply (counter_not_lowered_row _ _ _ (apply_patch (claim_patch e video) video))
         in Hlowered; [| |done].
  all: try (unfold update_rows; apply list_elem_of_fmap; exists video;
            by rewrite String.eqb_refl).
  all: unfold attempts_of, claim_patch, failed_patch, attempt_number in *;
    simpl in *; lia.
Qed.

Lemma run_does_not_enforce_the_cap_witness :
  let video := job 3 (Some 45%Q) None in
  let e := with_head (HeadThrow "NotFound") env_ok in
  let w := world_of [video] in
  known_too_short video = false /\
  3 <= attempts_of video /\
  video ∈ db w /\
  set_remux_attempts (claim_patch e video) = Some 4 /\
  ~ each_write counter_not_lowered (db w) (events (processVideo e video w)).
Proof.
  cbv zeta. split; [reflexivity|]. split; [by vm_compute|].
  split; [apply list_elem_of_here|].
  destruct (run_does_not_enforce_the_cap (with_head (HeadThrow "NotFound") env_ok)
              (job 3 (Some 45%Q) None) (world_of [job 3 (Some 45%Q) None]))
    as (Hclaim & Hlowered & _);
    [reflexivity | by vm_compute | apply list_elem_of_here | reflexivity | reflexivity
    | by intros w' |].
  split; [exact Hclaim | exact Hlowered].
Defined.

(** ** The cycle *)

Lemma existsb_false_Forall {A} (f : A -> bool) (l : list A) :
  Forall (fun x => f x = false) l <-> existsb f l = false.
Proof.
  induction l as [|x l IH]; simpl; [by split; [|constructor]|].
  rewrite Forall_cons, orb_false_iff, IH. done.
Qed.

Section Cycle.
Context (P : event -> Prop) (finish : packing_record -> nat).
Context (job : packing_record -> M unit) (videos : list packing_record).
Hypothesis job_emits : forall video, video ∈ videos -> emits P (job video).
Hypothesis launch_ok : forall id, P (EvLaunch id).
Hypothesis settled_ok : forall id fulfilled, P (EvSettled id fulfilled).

Lemma settle_all_emits (group : list packing_record) :
  group ⊆ videos -> emits P (settle_all job group).
Proof.
  induction group as [|video group IH]; intros Hsub; cbn [settle_all].
  - apply emits_ret.
  - apply emits_bind; [|intros c; apply emits_bind; [|intros cs; apply emits_ret]].
    + intros w. unfold settle.
      pose proof (job_emits video (Hsub _ (list_elem_of_here _ _)) w) as Hjob.
      destruct (job video w) as [c w1 evs]. cbn [events] in *.
      apply Forall_app. split; [done|]. by repeat constructor.
    + apply IH. intros x Hx. apply Hsub. by apply list_elem_of_further.
Qed.

Lemma allSettled_emits (group : list packing_record) :
  group ⊆ videos -> emits P (allSettled finish job group).
Proof.
  intros Hsub. unfold allSettled.
  apply emits_bind.
  - clear Hsub. induction group as [|video group IH]; cbn [foldr].
    + apply emits_ret.
    + apply emits_bind; [by apply emits_emit | done].
  - intros _. apply emits_bind; [|intros _; apply emits_ret].
    apply settle_all_emits. intros x Hx. apply Hsub.
    by rewrite settlement_order_perm in Hx.
Qed.

Lemma dispatch_from_emits (fuel i : nat) :
  emits P (dispatch_from fuel finish job videos i).
Proof.
  revert i. induction fuel as [|fuel IH]; intros i; cbn [dispatch_from].
  - apply emits_ret.
  - destruct (i <? length videos)%nat; [|apply emits_ret].
    apply emits_bind; [|intros _; apply IH].
    apply allSettled_emits. intros x Hx. unfold slice in Hx.
    apply (sublist_subseteq _ _ (sublist_take _ _)) in Hx.
    by apply (sublist_subseteq _ _ (sublist_drop _ _)) in Hx.
Qed.
End Cycle.

(** What a cycle is, once the answer of the job store is known. *)
Lemma processVideos_run (ce : cycle_env) (w : world) :
  let job := fun video => processVideo (job_env ce video) video in
  processVideos ce w
  = match select_answer ce with
    | SelectRows =>
        let r := dispatch (finish_time ce) job (run_select discovery_query (db w)) w in
        {| outcome := Normal tt; after := after r; events := EvSelect :: events r |}
    | SelectNoData => {| outcome := Normal tt; after := w; events := [EvSelect] |}
    | SelectError msg =>
        {| outcome := Normal tt; after := w;
           events := [EvSelect; EvConsoleError ("Database query error: " +:+ msg)] |}
    | SelectThrow msg =>
        {| outcome := Normal tt; after := w;
           events := [EvSelect; EvConsoleError ("Process error: " +:+ msg)] |}
    end.
Proof.
  cbv zeta. unfold processVideos, select_rows, try_catch, mbind, M_bind, bind, emit, ret.
  destruct (select_answer ce) as [| |msg|msg]; try done.
  cbn [outcome after events select_error data].
  destruct (run_select discovery_query (db w)) as [|video found] eqn:Hfound; [done|].
  destruct (dispatch_from_run (finish_time ce)
              (fun video => processVideo (job_env ce video) video)
              (fun video => processVideo_quiet (job_env ce video) video)
              (video :: found) (length (video :: found)) 0 w) as [Hnormal _]; [lia|].
  fold (dispatch (finish_time ce)
          (fun video => processVideo (job_env ce video) video) (video :: found))
    in Hnormal.
  destruct (dispatch _ _ (video :: found) w) as [c w1 evs].
  cbn [outcome] in Hnormal. by subst c.
Qed.

Lemma launched_app (s1 s2 : list mark) : launched (s1 ++ s2) = launched s1 ++ launched s2.
Proof. apply omap_app. Qed.

Lemma launched_group (finish : packing_record -> nat) (group : list packing_record) :
  launched (group_schedule finish group) = pr_id <$> group.
Proof.
  unfold group_schedule. rewrite launched_app.
  assert (launched ((fun video => Settled (pr_id video)) <$> settlement_order finish group)
          = []) as ->.
  { induction (settlement_order finish group) as [|video l IH]; [done|].
    csimpl. exact IH. }
  rewrite app_nil_r.
  induction group as [|video group IH]; [done|]. csimpl. unfold launched in *.
  simpl. by rewrite IH.
Qed.

Lemma launched_groups (finish : packing_record -> nat)
    (groups : list (list packing_record)) :
  launched (concat (group_schedule finish <$> groups)) = pr_id <$> concat groups.
Proof.
  induction groups as [|group groups IH]; [done|]. csimpl.
  by rewrite launched_app, launched_group, fmap_app, IH.
Qed.

(** X12. A cycle never throws, whatever the query and the jobs do. When the
    query answers with rows, it creates one task for each returned job and for
    no other, in the order of the result, that is oldest first; all of them
    have settled when the cycle ends, and never more than 3 were in flight. *)
Theorem cycle_runs_every_discovered_job (ce : cycle_env) (w : world) :
  let r := processVideos ce w in
  outcome r = Normal tt /\
  launched (schedule (events r))
  = match select_answer ce with
    | SelectRows => pr_id <$> run_select discovery_query (db w)
    | _ => []
    end /\
  in_flight_after 0 (schedule (events r)) = 0%nat /\
  (peak_in_flight 0 (schedule (events r)) <= 3)%nat.
Proof.
  cbv zeta. rewrite processVideos_run. cbv zeta.
  destruct (select_answer ce) as [| |msg|msg]; cbn [outcome events];
    try (repeat split; cbn; lia).
  destruct (dispatch_from_run (finish_time ce)
              (fun video => processVideo (job_env ce video) video)
              (fun video => processVideo_quiet (job_env ce video) video)
              (run_select discovery_query (db w))
              (length (run_select discovery_query (db w))) 0 w)
    as (_ & groups & Hconcat & Hsizes & Hrun); [lia|].
  fold (dispatch (finish_time ce) (fun video => processVideo (job_env ce video) video)
          (run_select discovery_query (db w))) in Hrun.
  change (schedule (EvSelect :: ?evs)) with (schedule evs).
  rewrite Hrun. split; [done|]. split.
  - by rewrite launched_groups, Hconcat.
  - by apply groups_in_flight.
Qed.

Lemma eligible_has_duration (row : packing_record) :
  eligible row ->
  known_too_short row = false /\ exists d, recorded_duration row = Some (JFin d).
Proof.
  intros (_ & _ & _ & d & Hd & Hlong).
  unfold known_too_short, recorded_duration. rewrite Hd. cbn [truthy_num num_le_1].
  assert (Qle_bool d 1 = false) as Hle.
  { destruct (Qle_bool d 1) eqn:Hle; [|done].
    apply Qle_bool_iff in Hle. by apply Qlt_not_le in Hlong. }
  assert (Qeq_bool d 0 = false) as Hzero.
  { destruct (Qeq_bool d 0) eqn:Hzero; [|done].
    apply Qeq_bool_iff in Hzero. rewrite Hzero in Hlong.
    vm_compute in Hlong. discriminate. }
  rewrite Hle, Hzero. split; [by rewrite andb_false_r | by exists d].
Qed.

Lemma eligible_run_neither_probes_nor_skips (e : env) (video : packing_record) :
  eligible video ->
  emits (fun ev => is_probe ev || writes_status Skipped ev = false)
    (processVideo e video).
Proof.
  intros [Hknown [d Hrecorded]]%eligible_has_duration w.
  apply existsb_false_Forall.
  unfold_processor. explore.
  all: cbn [existsb is_probe]; eval_status; done.
Qed.

(** X13. Within a cycle the duration pre-check and the duration probe are
    never exercised: every job the query returns has a recorded duration
    above 1, so no task of a cycle runs ffprobe and none issues a [skipped]
    write. *)
Theorem cycle_neither_probes_nor_skips (ce : cycle_env) (w : world) :
  let r := processVideos ce w in
  existsb is_probe (events r) = false /\
  existsb (writes_status Skipped) (events r) = false.
Proof.
  cbv zeta.
  assert (existsb (fun ev => is_probe ev || writes_status Skipped ev)
            (events (processVideos ce w)) = false) as Hnone.
  { rewrite processVideos_run. cbv zeta.
    destruct (select_answer ce) as [| |msg|msg]; try done.
    cbn [events existsb is_probe writes_status orb].
    apply existsb_false_Forall. unfold dispatch.
    apply dispatch_from_emits; [|done..].
    intros video Hin. apply eligible_run_neither_probes_nor_skips.
    by apply elem_of_run_select in Hin as [_ Heligible]. }
  apply existsb_false_Forall in Hnone.
  split; apply existsb_false_Forall; (eapply Forall_impl; [exact Hnone|]);
    intros ev Hev; by apply orb_false_iff in Hev as [? ?].
Qed.

Lemma processVideos_logged (ce : cycle_env) : logged (processVideos ce).
Proof.
  intros w. rewrite processVideos_run. cbv zeta.
  destruct (select_answer ce) as [| |msg|msg]; try done.
  cbn [after events replay]. unfold dispatch.
  apply dispatch_from_logged. intros video. apply processVideo_logged.
Qed.

(** X14. A cycle writes to no row but those of the jobs its query returned:
    every other row of the table is, after the cycle, exactly what it was,
    no row is created or deleted, and the identity columns of every row are
    kept. *)
Theorem cycle_touches_only_discovered_jobs (ce : cycle_env) (w : world) :
  touches_only (pr_id <$> run_select discovery_query (db w))
    (db w) (db (after (processVideos ce w))).
Proof.
  rewrite processVideos_logged. apply replay_touches.
  rewrite processVideos_run. cbv zeta.
  destruct (select_answer ce) as [| |msg|msg]; try by repeat constructor.
  cbn [events]. constructor; [done|]. unfold dispatch.
  apply dispatch_from_emits; [|done..].
  intros video Hin w'.
  eapply Forall_impl; [apply processVideo_updates|].
  intros [] Hev; try done. destruct Hev as [-> _].
  by apply list_elem_of_fmap_2.
Qed.

(** ** The groups of the dispatcher *)

Lemma rounds_step (n : nat) : (0 < n)%nat -> rounds n = S (rounds (n - 3)).
Proof.
  intros Hn. unfold rounds.
  destruct (Nat.le_gt_cases 3 n) as [Hge|Hlt].
  - replace (n + 2)%nat with ((n - 3 + 2) + 1 * 3)%nat by lia.
    rewrite Nat.div_add by lia. lia.
  - destruct n as [|[|[|n]]]; try lia; reflexivity.
Qed.

Lemma group_at_shift (videos : list packing_record) (i k : nat) :
  slice (i + 3 * S k) (i + 3 * S k + 3) videos
  = slice (i + 3 + 3 * k) (i + 3 + 3 * k + 3) videos.
Proof. f_equal; lia. Qed.

Lemma slices_cover (videos : list packing_record) (n i : nat) :
  n = rounds (length videos - i) ->
  concat ((fun k => slice (i + 3 * k) (i + 3 * k + 3) videos) <$> seq 0 n)
  = drop i videos.
Proof.
  revert i. induction n as [|n IH]; intros i Hn.
  - destruct (Nat.eq_dec (length videos - i) 0) as [Hzero|Hpos].
    + rewrite drop_ge by lia. done.
    + rewrite rounds_step in Hn by lia. discriminate.
  - destruct (Nat.eq_dec (length videos - i) 0) as [Hzero|Hpos].
    + rewrite Hzero in Hn. discriminate.
    + rewrite rounds_step in Hn by lia. injection Hn as Hn.
      cbn [seq]. rewrite fmap_cons, <- fmap_S_seq, <- list_fmap_compose.
      cbn [concat].
      erewrite (list_fmap_ext _ (fun k => slice (i + 3 + 3 * k) (i + 3 + 3 * k + 3) videos));
        [|intros ? k _; apply group_at_shift].
      rewrite (IH (i + 3)%nat) by (rewrite Hn; f_equal; lia).
      unfold slice. replace (i + 3 * 0 + 3 - (i + 3 * 0))%nat with 3%nat by lia.
      replace (i + 3 * 0)%nat with i by lia.
      rewrite <- drop_drop. apply take_drop.
Qed.

Lemma dispatch_from_slices (finish : packing_record -> nat)
    (job : packing_record -> M unit)
    (job_quiet : forall video, emits is_quiet (job video))
    (videos : list packing_record) (fuel i : nat) (w : world) :
  (length videos - i <= fuel)%nat ->
  schedule (events (dispatch_from fuel finish job videos i w))
  = concat ((fun k => group_schedule finish (slice (i + 3 * k) (i + 3 * k + 3) videos))
              <$> seq 0 (rounds (length videos - i))).
Proof.
  revert i w. induction fuel as [|fuel IH]; intros i w Hfuel.
  - replace (length videos - i)%nat with 0%nat by lia. done.
  - cbn [dispatch_from].
    destruct (Nat.ltb_spec i (length videos)) as [Hlt|Hge].
    + unfold mbind, M_bind, bind.
      destruct (allSettled_run finish job job_quiet (slice i (i + batchSize) videos) w)
        as (Hschedule & Houtcome).
      destruct (allSettled finish job (slice i (i + batchSize) videos) w) as [cs w1 evs].
      cbn [outcome events] in *. subst cs.
      specialize (IH (i + batchSize)%nat w1).
      destruct (dispatch_from fuel finish job videos (i + batchSize) w1) as [c w2 evs2].
      cbn [events] in *.
      rewrite schedule_app, Hschedule, IH by (unfold batchSize; lia).
      rewrite (rounds_step (length videos - i)) by lia.
      cbn [seq]. rewrite fmap_cons, <- fmap_S_seq, <- list_fmap_compose.
      cbn [concat].
      unfold batchSize. f_equal; [do 2 f_equal; lia|].
      replace (length videos - (i + 3))%nat with (length videos - i - 3)%nat by lia.
      f_equal. apply list_fmap_ext. intros ? k _. cbn. f_equal. apply eq_sym.
      apply group_at_shift.
    + replace (length videos - i)%nat with 0%nat by lia. done.
Qed.

(** X15. The loop cuts the list into [videos.slice(0, 3)], [videos.slice(3,
    6)], ...: over [n] jobs it takes [(n + 2) / 3] rounds, the [k]-th round
    creates the promises of the [k]-th slice in list order and sees the same
    jobs settle, in the order in which they finish, before the next round;
    every round but the last has exactly 3 jobs, and the slices put end to
    end are the list itself. A cycle, whose query returns at most 5 jobs,
    takes at most 2 rounds. *)
Theorem dispatch_cuts_into_threes
    (finish : packing_record -> nat) (envs : packing_record -> env)
    (videos : list packing_record) (w : world) :
  let r := dispatch finish (fun video => processVideo (envs video) video) videos w in
  let n := rounds (length videos) in
  schedule (events r)
  = concat ((fun k =>
               ((fun video => Launched (pr_id video)) <$> group_at videos k)
               ++ ((fun video => Settled (pr_id video))
                     <$> settlement_order finish (group_at videos k)))
              <$> seq 0 n) /\
  (forall k, settlement_order finish (group_at videos k) ≡ₚ group_at videos k) /\
  concat (group_at videos <$> seq 0 n) = videos /\
  (forall k, (k + 1 < n)%nat -> length (group_at videos k) = 3%nat) /\
  (forall k, (k < n)%nat -> (1 <= length (group_at videos k) <= 3)%nat) /\
  (forall tbl, (rounds (length (run_select discovery_query tbl)) <= 2)%nat).
Proof.
  cbv zeta. split; [|split; [|split; [|split; [|split]]]].
  - unfold dispatch.
    rewrite (dispatch_from_slices _ _ (fun video => processVideo_quiet (envs video) video))
      by lia.
    rewrite Nat.sub_0_r. done.
  - intros k. apply settlement_order_perm.
  - pose proof (slices_cover videos (rounds (length videos)) 0) as Hcover.
    rewrite Nat.sub_0_r in Hcover. by apply Hcover.
  - intros k Hk. unfold group_at, slice.
    rewrite length_take, length_drop.
    unfold rounds in Hk. pose proof (Nat.Div0.mul_div_le (length videos + 2) 3). lia.
  - intros k Hk. unfold group_at, slice.
    rewrite length_take, length_drop.
    unfold rounds in Hk.
    pose proof (Nat.Div0.mul_div_le (length videos + 2) 3). lia.
  - intros tbl. unfold rounds.
    assert (length (run_select discovery_query tbl) <= 5)%nat as Hfive.
    { unfold run_select. rewrite length_take. apply Nat.le_min_l. }
    apply Nat.lt_succ_r, Nat.Div0.div_lt_upper_bound; lia.
Qed.

(** ** After a cycle *)

Lemma processVideo_leaves_pending (e : env) (video : packing_record) :
  emits leaves_pending (processVideo e video).
Proof.
  unfold processVideo, attempt, on_error, remux_and_store, checkR2File,
    downloadFromR2, uploadToR2, getVideoDuration, executeFFmpeg, markAsFailed.
  walk; try done; unfold_patches; simpl; by eexists.
Qed.

Lemma update_rows_not_pending (id id' : string) (p : patch)
    (tbl : list packing_record) :
  leaves_pending (EvUpdate id' p true) ->
  (id' = id \/ forall row, row ∈ tbl -> pr_id row = id -> not_pending row) ->
  forall row, row ∈ update_rows id' p tbl -> pr_id row = id -> not_pending row.
Proof.
  intros (st & Hst & Hne) Hbefore row' Hin Hid.
  apply elem_of_update_rows in Hin as (row & Hrow & Hsame & Hpatched & Hother).
  destruct (decide (pr_id row = id')) as [Heq|Hdiff].
  - rewrite (Hpatched Heq). exists st. split; [|done].
    unfold apply_patch. simpl. by rewrite Hst.
  - rewrite (Hother Hdiff). destruct Hbefore as [->|Hbefore]; [congruence|].
    apply Hbefore; [done | congruence].
Qed.

Lemma replay_keeps_not_pending (id : string) (evs : list event)
    (tbl : list packing_record) :
  Forall leaves_pending evs ->
  (forall row, row ∈ tbl -> pr_id row = id -> not_pending row) ->
  forall row, row ∈ replay evs tbl -> pr_id row = id -> not_pending row.
Proof.
  intros Hevs. revert tbl.
  induction Hevs as [|ev evs Hev _ IH]; intros tbl Hbefore; [done|].
  destruct ev; simpl; try by apply IH.
  match goal with applied : bool |- _ => destruct applied end; [|by apply IH].
  apply IH. apply update_rows_not_pending; auto.
Qed.

Lemma replay_makes_not_pending (id : string) (evs : list event)
    (tbl : list packing_record) :
  Forall leaves_pending evs ->
  existsb (is_applied_update_of id) evs = true ->
  forall row, row ∈ replay evs tbl -> pr_id row = id -> not_pending row.
Proof.
  intros Hevs. revert tbl.
  induction Hevs as [|ev evs Hev Hrest IH]; intros tbl Hsome; [done|].
  destruct ev; simpl in *; try by apply IH.
  match goal with applied : bool |- _ => destruct applied end; [|by apply IH].
  destruct (String.eqb_spec id0 id) as [->|Hne]; [|by apply IH].
  apply replay_keeps_not_pending; [done|].
  apply update_rows_not_pending; auto.
Qed.

Section Reached.
Context (finish : packing_record -> nat) (job : packing_record -> M unit).
Context (test : event -> bool).
Context (videos : list packing_record) (video : packing_record).
Hypothesis job_quiet : forall x, emits is_quiet (job x).
Hypothesis job_reaches : forall w, existsb test (events (job video w)) = true.

Lemma settle_all_reaches (group : list packing_record) (w : world) :
  video ∈ group -> existsb test (events (settle_all job group w)) = true.
Proof.
  revert w. induction group as [|x group IH]; intros w Hin;
    [by apply elem_of_nil in Hin|].
  cbn [settle_all]. unfold mbind, M_bind, bind, settle, ret.
  pose proof (job_reaches w) as Hjob.
  apply elem_of_cons in Hin as [<-|Hin].
  - destruct (job video w) as [c w1 evs].
    destruct (settle_all job group w1) as [[cs|msg] w2 evs2];
      cbn [events outcome] in *; by rewrite !existsb_app, Hjob.
  - destruct (job x w) as [c w1 evs]. specialize (IH w1 Hin).
    destruct (settle_all job group w1) as [[cs|msg] w2 evs2];
      cbn [events outcome] in *; rewrite !existsb_app, IH; by rewrite !orb_true_r.
Qed.

Lemma dispatch_from_reaches (fuel i : nat) (w : world) :
  (length videos - i <= fuel)%nat ->
  video ∈ drop i videos ->
  existsb test (events (dispatch_from fuel finish job videos i w)) = true.
Proof.
  revert i w. induction fuel as [|fuel IH]; intros i w Hfuel Hin.
  - rewrite drop_ge in Hin by lia. by apply elem_of_nil in Hin.
  - cbn [dispatch_from].
    destruct (Nat.ltb_spec i (length videos)) as [Hlt|Hge];
      [|rewrite drop_ge in Hin by lia; by apply elem_of_nil in Hin].
    unfold mbind, M_bind, bind.
    rewrite (allSettled_unfold finish job job_quiet).
    rewrite <- (take_drop 3 (drop i videos)), drop_drop in Hin.
    specialize (IH (i + batchSize)%nat
                  (after (settle_all job
                            (settlement_order finish (slice i (i + batchSize) videos)) w))).
    destruct (dispatch_from fuel finish job videos (i + batchSize) _) as [c w2 evs2].
    cbn [events] in *. rewrite !existsb_app.
    apply elem_of_app in Hin as [Hbatch|Hlater].
    + assert (video ∈ settlement_order finish (slice i (i + batchSize) videos)) as Hslice.
      { rewrite settlement_order_perm. unfold slice, batchSize.
        by replace (i + 3 - i)%nat with 3%nat by lia. }
      rewrite (settle_all_reaches _ w Hslice). by rewrite orb_true_r.
    + rewrite IH; [by rewrite !orb_true_r|unfold batchSize; lia|done].
Qed.
End Reached.

(** X16. After a cycle in which the claim writes are applied, no row of a
    discovered job is [pending] any more -- whether its task completed,
    failed, rejected or was left at [processing] -- so the query of the next
    cycle returns none of these jobs. *)
Theorem discovered_jobs_leave_the_queue (ce : cycle_env) (w : world) :
  select_answer ce = SelectRows ->
  (forall video, db_claim (job_env ce video) = WApplied) ->
  let found := run_select discovery_query (db w) in
  let tbl' := db (after (processVideos ce w)) in
  forall row, row ∈ tbl' -> pr_id row ∈ pr_id <$> found ->
    not_pending row /\ row ∉ run_select discovery_query tbl'.
Proof.
  intros Hrows Hclaims found tbl' row Hin Hid.
  assert (not_pending row) as Hleft.
  { apply list_elem_of_fmap in Hid as (video & Hid & Hfound).
    subst tbl'. rewrite processVideos_logged in Hin.
    revert Hin. rewrite processVideos_run, Hrows. cbv zeta. cbn [events replay].
    intros Hin. eapply replay_makes_not_pending; [| |exact Hin|exact Hid].
    - unfold dispatch. apply dispatch_from_emits; [|done..].
      intros x _. apply processVideo_leaves_pending.
    - unfold dispatch.
      apply (dispatch_from_reaches _ _ _ found video);
        [intros x; apply processVideo_quiet| |subst found; lia|done].
      intros w'. apply elem_of_run_select in Hfound as [_ Heligible].
      apply eligible_has_duration in Heligible as [Hknown _].
      unfold processVideo. rewrite Hknown.
      unfold mbind, M_bind, bind, db_update. rewrite Hclaims.
      destruct (try_finally _ _ _) as [c w1 evs].
      cbn [events existsb is_applied_update_of app]. by rewrite String.eqb_refl. }
  split; [done|].
  intros Hagain. apply elem_of_run_select in Hagain as (_ & _ & Hpending & _).
  destruct Hleft as (st & Hst & Hne). congruence.
Qed.

Lemma discovered_jobs_leave_the_queue_witness :
  let ce := (cycle_of env_ok) in
  let tbl' := db (after (processVideos ce four_jobs)) in
  select_answer ce = SelectRows /\
  (forall video, db_claim (job_env ce video) = WApplied) /\
  forall row, row ∈ tbl' ->
    pr_id row ∈ pr_id <$> run_select discovery_query (db four_jobs) ->
    row ∉ run_select discovery_query tbl'.
Proof.
  cbv zeta. split; [reflexivity|]. split; [by intros video|].
  intros row Hin Hid.
  by destruct (discovered_jobs_leave_the_queue
                 (cycle_of env_ok)
                 four_jobs eq_refl (fun _ => eq_refl) row Hin Hid) as [_ Hnot].
Defined.

(** ** Answers of the job store *)

(** Reduces the fields of [refusing e]. *)
Ltac unfold_refusing :=
  cbn [refusing tempDir at_skipped at_claimed at_remuxed at_failed elapsed_ms
       db_skip_known db_claim head dl_stream dl_signed_url dl_wget dl_curl
       stat_input ffprobe db_skip_probed ffmpeg stat_output read_output
       put_object db_completed db_failed_missing db_failed_caught];
  unfold refuse.

(** X17. The error answers of the job store are ignored. With a store that
    answers every update with an error instead of applying it, the run issues
    the same effects in the same order, ends the same way and counts the same
    statistics -- it downloads, remuxes and uploads all the same -- and the
    table is left untouched. *)
Theorem store_errors_are_ignored (e : env) (video : packing_record) (w : world) :
  let r := processVideo e video w in
  let r' := processVideo (refusing e) video w in
  outcome r' = outcome r /\
  forget_applied <$> events r' = forget_applied <$> events r /\
  stats (after r') = stats (after r) /\
  db (after r') = db w.
Proof.
  cbv zeta. unfold_processor. unfold_refusing. explore.
  all: repeat split; reflexivity.
Qed.

(** ** Upload, completion and failure of the remux *)

(** Finds the position of two consecutive events in an explicit list. *)
Ltac find_position n :=
  first [ exists n; do 4 eexists; repeat split; reflexivity
        | lazymatch n with
          | 20%nat => fail
          | _ => find_position (S n)
          end ].

(** X18. A job is written [completed] only right after its remuxed file has
    been put at its key: the [completed] update is the effect that follows a
    successful PUT, and it carries the sizes read from the two scratch
    files. *)
Theorem completed_only_after_upload (e : env) (video : packing_record) (w : world) :
  let r := processVideo e video w in
  existsb (writes_status Completed) (events r) = true ->
  put_object e = Normal tt /\
  exists i inputSize outputSize actualDuration applied,
    stat_input e = Normal inputSize /\
    stat_output e = Normal outputSize /\
    events r !! i = Some (EvPut (tempOutput e video) (video_url video)) /\
    events r !! S i
    = Some (EvUpdate (pr_id video)
              (completed_patch e video inputSize outputSize actualDuration) applied).
Proof.
  cbv zeta. unfold_processor. explore.
  all: eval_status; try discriminate; intros _.
  all: repeat match goal with u : unit |- _ => destruct u end.
  all: (split; [done|]).
  all: find_position 0%nat.
Qed.

Lemma completed_only_after_upload_witness :
  let video := job 0 (Some 45%Q) None in
  let r := processVideo env_ok video (world_of [video]) in
  existsb (writes_status Completed) (events r) = true /\
  put_object env_ok = Normal tt.
Proof.
  cbv zeta. split; [reflexivity|].
  by destruct (completed_only_after_upload env_ok (job 0 (Some 45%Q) None)
                 (world_of [job 0 (Some 45%Q) None]) eq_refl) as [Hput _].
Defined.

(** X19. A remux that really fails leaves the object alone and is reported
    with its cut diagnostic: the run uploads nothing, writes no [completed],
    and logs the error; below the cap it writes no [failed] either, and at the
    cap, once the [failed] update is applied, the rows of the job hold
    ["FFmpeg failed: "] followed by at most 500 characters of the tool's
    output as [remux_error]. *)
Theorem failed_remux_is_recorded (e : env) (video : packing_record) (w : world) :
  let r := processVideo e video w in
  let text := "FFmpeg failed: " +:+ substring0 500 (diagnostic (ffmpeg e)) in
  existsb is_remux (events r) = true ->
  real_failure (ffmpeg e) ->
  existsb is_put (events r) = false /\
  existsb (writes_status Completed) (events r) = false /\
  EvConsoleError ("Failed: " +:+ text) ∈ events r /\
  (attempt_number video < 3 -> existsb (writes_status Failed) (events r) = false) /\
  (3 <= attempt_number video -> db_failed_caught e = WApplied ->
   forall row, row ∈ db (after r) -> pr_id row = pr_id video ->
     remux_status row = Some Failed /\ remux_attempts row = Some 3 /\
     meta_lookup row "remux_error" = Some (JStr text)).
Proof.
  cbv zeta. intros Hran Hfailure. apply ffmpeg_callback_thrown in Hfailure.
  revert Hran. unfold_processor. explore.
  all: cbn [existsb is_remux is_put orb]; try discriminate; intros _.
  all: (split; [done|]).
  all: (split; [by eval_status|]).
  all: (split; [find_event|]).
  all: split; [intros Hn; leb_facts; try lia; by eval_status|].
  all: intros Hn Happlied; try discriminate; leb_facts; try lia.
  all: intros row Hin Hid; patched_rows.
  all: unfold meta_lookup, failed_patch; simpl.
  all: (split; [done|]); (split; [done|]); by spread_lookup.
Qed.

Lemma failed_remux_is_recorded_witness :
  let video := job 2 (Some 45%Q) None in
  let e := {| tempDir := tempDir env_ok; at_skipped := at_skipped env_ok;
              at_claimed := at_claimed env_ok; at_remuxed := at_remuxed env_ok;
              at_failed := at_failed env_ok; elapsed_ms := elapsed_ms env_ok;
              db_skip_known := WApplied; db_claim := WApplied;
              head := head env_ok; dl_stream := Normal tt;
              dl_signed_url := Normal tt; dl_wget := Normal tt; dl_curl := Normal tt;
              stat_input := Normal 1000; ffprobe := ffprobe env_ok;
              db_skip_probed := WApplied; ffmpeg := ffmpeg_broken;
              stat_output := Normal 1100; read_output := Normal tt;
              put_object := Normal tt; db_completed := WApplied;
              db_failed_missing := WApplied; db_failed_caught := WApplied |} in
  let r := processVideo e video (world_of [video]) in
  existsb is_remux (events r) = true /\
  real_failure (ffmpeg e) /\
  forall row, row ∈ db (after r) -> pr_id row = pr_id video ->
    meta_lookup row "remux_error"
    = Some (JStr "FFmpeg failed: Invalid data found when processing input").
Proof.
  cbv zeta.
  assert (real_failure ffmpeg_broken) as Hfailure.
  { exists {| code := CodeNumber 1; message := "Command failed" |}.
    split; [reflexivity|]. split; [discriminate|].
    intros Hmarker. apply includes_spec in Hmarker. discriminate. }
  split; [reflexivity|]. split; [exact Hfailure|].
  intros row Hin Hid.
  match type of Hin with
  | row ∈ db (after (processVideo ?e ?video ?w)) =>
      destruct (failed_remux_is_recorded e video w eq_refl Hfailure)
        as (_ & _ & _ & _ & Hcap)
  end.
  destruct (Hcap ltac:(by vm_compute) eq_refl row Hin Hid) as (_ & _ & Herror).
  exact Herror.
Defined.

(** * The retry path *)

Lemma cycles_step (ce : cycle_env) (rest : list cycle_env) (w : world) :
  let r1 := processVideos ce w in
  let r2 := cycles rest (after r1) in
  cycles (ce :: rest) w
  = {| outcome := outcome r2; after := after r2; events := events r1 ++ events r2 |}.
Proof.
  cbv zeta. cbn [cycles]. unfold mbind, M_bind, bind.
  assert (outcome (processVideos ce w) = Normal tt) as Hnormal.
  { rewrite processVideos_run. cbv zeta. by destruct (select_answer ce). }
  destruct (processVideos ce w) as [c w1 evs]. cbn [outcome after events] in *.
  subst c. by destruct (cycles rest w1).
Qed.

(** With nothing to discover, cycles leave the table as it is: they only
    query, and log the query's errors. *)
Lemma idle_cycles (ces : list cycle_env) (w : world) :
  run_select discovery_query (db w) = [] ->
  after (cycles ces w) = w /\
  Forall (fun ev => ev = EvSelect \/ is_console_error ev = true) (events (cycles ces w)).
Proof.
  intros Hnone. induction ces as [|ce ces [IHafter IHevents]]; [by split|].
  rewrite cycles_step. cbv zeta. cbn [after events].
  assert (after (processVideos ce w) = w /\
          Forall (fun ev => ev = EvSelect \/ is_console_error ev = true)
            (events (processVideos ce w))) as [Hafter Hevents].
  { rewrite processVideos_run. cbv zeta.
    destruct (select_answer ce) as [| |msg|msg]; cbn [after events];
      [rewrite Hnone|..]; (split; [done|]); repeat constructor; by right. }
  rewrite Hafter. split; [done|]. by apply Forall_app.
Qed.

(** C10. [checkR2File] answers [true] exactly when the HEAD request succeeds
    with a content length above 0, so an object of zero bytes is reported
    absent and nothing is downloaded or remuxed. The retry the code announces
    does not happen: the first cycle claims the job, finds no object and
    leaves the row at [processing] with one attempt; whatever the later
    cycles are given, their query does not return that row, so the job is
    launched once, its counter stays at 1 and no [failed] write is ever
    issued. *)
Theorem zero_length_upload_is_never_failed (later : list cycle_env) :
  (forall e key w, outcome (checkR2File e key w) = Normal true <-> object_found e) /\
  let e := with_head (HeadOk (Some 0)) env_ok in
  let w := world_of [pending_job "A" 10] in
  let r := cycles (cycle_of e :: later) w in
  outcome (checkR2File e "recordings/A.webm" w) = Normal false /\
  (fun row => (pr_id row, remux_status row, remux_attempts row)) <$> db (after r)
  = [("A", Some Processing, Some 1)] /\
  launched (schedule (events r)) = ["A"] /\
  existsb (writes_status Failed) (events r) = false /\
  existsb is_download_or_remux (events r) = false.
Proof.
  split.
  { intros e key w.
    by destruct (existence_needs_positive_length e (pending_job "A" 10) w key)
      as (Hfound & _). }
  cbv zeta. split; [reflexivity|].
  rewrite cycles_step. cbv zeta. cbn [after events].
  set (first := processVideos (cycle_of (with_head (HeadOk (Some 0)) env_ok))
                  (world_of [pending_job "A" 10])).
  assert ((fun row => (pr_id row, remux_status row, remux_attempts row))
            <$> db (after first) = [("A", Some Processing, Some 1)]) as Hrow
    by reflexivity.
  assert (run_select discovery_query (db (after first)) = []) as Hnone by reflexivity.
  destruct (idle_cycles later (after first) Hnone) as [-> Hidle].
  split; [exact Hrow|].
  assert (forall test : event -> bool,
            test EvSelect = false ->
            (forall msg, test (EvConsoleError msg) = false) ->
            existsb test (events (cycles later (after first))) = false) as Hquiet.
  { intros test Hselect Herror. apply existsb_false_Forall.
    eapply Forall_impl; [exact Hidle|].
    intros ev [->|Hev]; [done|]. destruct ev; try discriminate. apply Herror. }
  split; [|split].
  - rewrite schedule_app, launched_app.
    rewrite (schedule_quiet (events (cycles later _))); [reflexivity|].
    eapply Forall_impl; [exact Hidle|].
    intros ev [->|Hev]; [done|]. by destruct ev.
  - rewrite existsb_app, Hquiet by done. reflexivity.
  - rewrite existsb_app, Hquiet by done. reflexivity.
Qed.
